(** * celeste_bot.py: the poll / validate / reject pipeline of the
      Celeste leaderboard bot, as a shallow embedding.

    The Python module has one class, [CelesteLeaderboardBot], with five
    static rule predicates and the method [main] that runs one cycle and
    re-schedules itself.  Python values are modelled as follows:

    - JSON numbers ([realtime_t], [ingame_t]) are Python [int] or [float];
      a [float] is an IEEE 754 binary64 value ([spec_float], precision 53,
      [emax] 1024);
    - a dict is a [gmap]; subscripting a missing key raises [KeyError];
    - exceptions are a sum type, and code that raises, logs or mutates the
      cycle's local lists lives in the monad [M];
    - everything outside the module (HTTP, Twitch, the random generator,
      [urlparse], [int] on strings) is a field of the record [world]. *)

From Stdlib Require Import ZArith Lia List Ascii String.
From Stdlib Require Import SpecFloat.
From stdpp Require Import base option list gmap strings.

Open Scope Z_scope.

(** ** Python exceptions and results *)

(** The exception classes the module mentions or can meet.  [TwitchError]
    stands for the tuple [(TwitchAttributeException, TwitchOAuthException,
    TwitchAuthException)], [ConnectionError] for the built-in class and its
    subclasses, [HTTPError] for [urllib.error.HTTPError], and [URLError]
    for an instance of [urllib.error.URLError] that is not an [HTTPError]:
    [HTTPError] is a subclass of [URLError], and [URLError] is an [OSError]
    but no [ConnectionError].  [urlopen] raises [URLError] when the request
    cannot be sent (connection refused, host not found). *)
Inductive exn :=
| KeyError | TypeError | IndexError | ValueError | OverflowError
| TwitchError | HTTPError | URLError | ConnectionError | OtherError.

#[global] Instance exn_eq_dec : EqDecision exn.
Proof. solve_decision. Defined.

Inductive result (A : Type) :=
| Ok (a : A)
| Err (e : exn).
Arguments Ok {A} a.
Arguments Err {A} e.

(** ** Python numbers *)

Module PyNum.

Definition prec : Z := 53.
Definition emax : Z := 1024.

Inductive pynum :=
| PyInt (z : Z)
| PyFloat (f : spec_float).

(** [float(n)] for an [int] operand of a mixed operation. *)
Definition float_of_int (n : Z) : spec_float :=
  binary_normalize prec emax n 0 false.

(** [n * x] for an [int] literal [n]. *)
Definition mul_int (n : Z) (x : pynum) : pynum :=
  match x with
  | PyInt z => PyInt (n * z)
  | PyFloat f => PyFloat (SFmul prec emax (float_of_int n) f)
  end.

(** [int(x)]: truncation towards zero; [ValueError] on NaN,
    [OverflowError] on an infinity. *)
Definition trunc (x : pynum) : result Z :=
  match x with
  | PyInt z => Ok z
  | PyFloat (S754_zero _) => Ok 0
  | PyFloat (S754_finite s m e) =>
      Ok (cond_Zopp s (if 0 <=? e then Z.pos m * 2 ^ e
                       else Z.pos m / 2 ^ (- e)))
  | PyFloat S754_nan => Err ValueError
  | PyFloat (S754_infinity _) => Err OverflowError
  end.

(** [x == 0]. *)
Definition eq_zero (x : pynum) : bool :=
  match x with
  | PyInt z => z =? 0
  | PyFloat (S754_zero _) => true
  | PyFloat _ => false
  end.

(** The float is the binary64 value nearest to the rational [n / d]
    (what [json.loads] yields for a decimal literal), with [d > 0]:
    a valid normal binary64 whose distance to [n / d] is at most half a
    unit in the last place. *)
Definition nearest_to (n d : Z) (f : spec_float) : Prop :=
  match f with
  | S754_finite false m e =>
      valid_binary prec emax f = true
      /\ Z.pos (digits2_pos m) = prec
      /\ e < 0
      /\ 2 * Z.abs (Z.pos m * d - n * 2 ^ (- e)) <= d
  | _ => False
  end.

End PyNum.
Export PyNum.

(** ** Python strings *)

(** [needle in hay] on [str]: substring test. *)
Fixpoint substring_in (needle hay : string) : bool :=
  match hay with
  | EmptyString => bool_decide (needle = EmptyString)
  | String _ rest => String.prefix needle hay || substring_in needle rest
  end.

(** [s.split(sep)] for a one-character separator: the fields between the
    separators, empty fields included. *)
Fixpoint split_on (sep : ascii) (s : string) : list string :=
  match s with
  | EmptyString => [EmptyString]
  | String c rest =>
      if bool_decide (c = sep) then EmptyString :: split_on sep rest
      else match split_on sep rest with
           | [] => [String c EmptyString]
           | w :: ws => String c w :: ws
           end
  end.

(** ** Data model *)

(** One element of [run["videos"]["links"]]. *)
Record link := { uri : string }.

(** [run["videos"]] as the predicate can meet it: no ["videos"] key or a
    dict without ["links"] (subscripting raises [KeyError]), JSON [null]
    (subscripting [None] raises [TypeError]), or a dict with a list of
    links. *)
Inductive videos_field :=
| VideosMissing
| VideosNull
| VideosLinks (links : list link).

(** A submission as returned in the ["data"] list of the runs endpoint:
    [run["id"]], [run["times"]["realtime_t"]], [run["times"]["ingame_t"]],
    [run["values"]], [run["system"]["platform"]], [run["videos"]]. *)
Record run := {
  run_id : string;
  realtime_t : pynum;
  ingame_t : pynum;
  values : gmap string string;
  platform : string;
  videos : videos_field
}.

(** [game["version"]], passed as keyword arguments to the version rules. *)
Record version_cfg := {
  variable_id : string;
  default_ver : string;
  invalid_ver : gmap string (list string)
}.

(** One entry of [self.GAMES]. *)
Record game := {
  game_id : string;
  version : version_cfg
}.

(** [class SubmissionErrors(IntEnum)]. *)
Inductive SubmissionErrors :=
| ERROR_SUBMITTED_RTA
| ERROR_NO_VERSION
| ERROR_INVALID_IGT
| ERROR_INVALID_VERSION
| ERROR_BAD_VOD.

#[global] Instance SubmissionErrors_eq_dec : EqDecision SubmissionErrors.
Proof. solve_decision. Defined.

(** The integer value of an enumeration member. *)
Definition error_value (f : SubmissionErrors) : Z :=
  match f with
  | ERROR_SUBMITTED_RTA => 0
  | ERROR_NO_VERSION => 1
  | ERROR_INVALID_IGT => 2
  | ERROR_INVALID_VERSION => 3
  | ERROR_BAD_VOD => 4
  end.

(** The dict [invalid_run]: ["id"] and ["faults"]. *)
Record invalid_run := {
  inv_id : string;
  faults : list SubmissionErrors
}.

(** ** Module constants *)

Definition QUERY_TABLE : gmap nat string :=
  list_to_map
    [ (0%nat, "game"); (1%nat, "category"); (2%nat, "level");
      (3%nat, "platform"); (4%nat, "region"); (5%nat, "emulated");
      (6%nat, "date"); (7%nat, "submitted"); (8%nat, "status");
      (9%nat, "verify-date") ].

#[global] Arguments QUERY_TABLE : simpl never.

Definition ACCOUNT_NAME : string := "BadelineBot".

Definition BASE_REASON (x : string) : string :=
  ACCOUNT_NAME +:+ " found the following problem" +:+ x
  +:+ " with your submission, please edit it accordingly: ".

Definition REASON_TEXT : gmap Z string :=
  list_to_map
    [ (0, "Your submission has real-time, leave the real-time column empty");
      (1, "You did not select a version, make sure to select the correct game version");
      (2, "Your submission has an invalid IGT, check the final time of your run and adjust the submission");
      (3, "The version you selected does not exist on your platform, please select the correct game version");
      (4, "The video you submitted is a Twitch past broadcast that will be deleted after a while, please highlight your run") ].

Definition GENERIC_REASON : string :=
  ACCOUNT_NAME +:+ " found various issues with your submission, please read the rules or contact a moderator/verifier.".

(** ** The world outside the module *)

(** The fields of [urllib.parse.ParseResult] the module reads. *)
Record ParseResult := { netloc : string; path : string }.

(** One element of the list [client.get_videos] returns: [vid_data["type"]]. *)
Record video := { vtype : string }.

(** The GET request of one game: the query parameters of the URL. *)
Record get_request := {
  get_game : string;
  get_direction : string;
  get_orderby : string;
  get_max : Z
}.

(** The PUT request of one rejection: the run in the URL, the API key
    header and the JSON body. *)
Record put_request := {
  put_id : string;
  put_key : string;
  put_status : string;
  put_reason : string
}.

(** Calls are told apart by where they happen in the cycle: [gi] is the
    position of the game in [self.GAMES], [j] the position of the run in
    the fetched list, [k] the position of the run in [faulty_runs].  An
    answer may so depend on every earlier call of the cycle.

    [random w gi] is the integer [n] with [random() = n / 2^53]
    ([0 <= n < 2^53]); [randint w gi] is the value of
    [randint(100, 200)].  [urlparse w s] and [int_of_str w s] are [None]
    when [urlparse(s)] and [int(s)] raise [ValueError] ([urlparse] does
    so on a host with an unmatched bracket). *)
Record world := {
  urlparse : string -> option ParseResult;
  int_of_str : string -> option Z;
  get_oauth : option exn;
  random : nat -> Z;
  randint : nat -> Z;
  urlopen_get : nat -> get_request -> result (list run);
  urlopen_put : nat -> nat -> put_request -> option exn;
  get_videos : nat -> nat -> Z -> result (list video)
}.


(** ** Events of one cycle *)

Inductive rule :=
| RuleRealTime
| RuleDefaultVersion
| RuleInGameTime
| RuleExistingVersion
| RulePersistentVod.

#[global] Instance rule_eq_dec : EqDecision rule.
Proof. solve_decision. Defined.

(** What the module prints. *)
Inductive log_msg :=
| LogOAuthError
| LogPlatformError (platform : string)
| LogTwitchError
| LogFound (id : string) (fs : list SubmissionErrors)
| LogRejected (id : string)
| LogAbort (e : exn).

(** [EvRule r id] marks the call of rule predicate [r] on the run [id] in
    [main]; the other events are the calls to the outside and the prints. *)
Inductive event :=
| EvOAuth
| EvGet (gi : nat) (req : get_request)
| EvRule (r : rule) (id : string)
| EvLookup (vid : Z)
| EvPut (req : put_request)
| EvLog (m : log_msg).

(** ** The monad of [main] *)

(** The lists [main] builds during a cycle. *)
Record locals := {
  cache : list string;
  rejected : list string;
  faulty_runs : list invalid_run
}.

(** A computation reads and updates the locals, emits events and either
    returns or raises; the updates made before a [raise] stay. *)
Definition M (A : Type) : Type := locals -> list event * locals * result A.

#[global] Instance M_ret : MRet M :=
  fun A a s => ([], s, Ok a).

#[global] Instance M_bind : MBind M :=
  fun A B f m s =>
    match m s with
    | (t1, s1, Ok a) =>
        match f a s1 with
        | (t2, s2, r) => (t1 ++ t2, s2, r)
        end
    | (t1, s1, Err e) => (t1, s1, Err e)
    end.

Definition raise {A} (e : exn) : M A :=
  fun s => ([], s, Err e).

Definition emit (ev : event) : M unit :=
  fun s => ([ev], s, Ok tt).

Definition gets {A} (f : locals -> A) : M A :=
  fun s => ([], s, Ok (f s)).

Definition modify (f : locals -> locals) : M unit :=
  fun s => ([], f s, Ok tt).

Definition liftR {A} (r : result A) : M A :=
  fun s => ([], s, r).

(** [try: m  except ...: h e]; [h e = None] when no clause matches [e]. *)
Definition try_except {A} (m : M A) (h : exn -> option (M A)) : M A :=
  fun s =>
    match m s with
    | (t1, s1, Ok a) => (t1, s1, Ok a)
    | (t1, s1, Err e) =>
        match h e with
        | Some k =>
            match k s1 with
            | (t2, s2, r) => (t1 ++ t2, s2, r)
            end
        | None => (t1, s1, Err e)
        end
    end.

(** [d[k]] on a dict. *)
Definition subscript `{Countable K} {V} (d : gmap K V) (k : K) : result V :=
  match d !! k with
  | Some v => Ok v
  | None => Err KeyError
  end.

(** [l[i]] on a list, for [i >= 0]. *)
Definition index {A} (l : list A) (i : nat) : result A :=
  match l !! i with
  | Some v => Ok v
  | None => Err IndexError
  end.

#[global] Instance result_ret : MRet result := fun A a => Ok a.

#[global] Instance result_bind : MBind result :=
  fun A B f r =>
    match r with
    | Ok a => f a
    | Err e => Err e
    end.

(** ** The rule predicates *)

(** [run["times"]["realtime_t"] == 0] *)
Definition valid_real_time (r : run) : bool :=
  PyNum.eq_zero (realtime_t r).

(** [not(run["values"][variable_id] == default_ver)] *)
Definition valid_default_version (r : run) (v : version_cfg) : result bool :=
  sel ← subscript (values r) (variable_id v);
  mret (negb (bool_decide (sel = default_ver v))).

(** [int(1000 * run["times"]["ingame_t"])] *)
Definition ingame_millis (r : run) : result Z :=
  PyNum.trunc (PyNum.mul_int 1000 (ingame_t r)).

(** [(int(1000 * run["times"]["ingame_t"]) % 17) == 0] *)
Definition valid_in_game_time (r : run) : result bool :=
  ms ← ingame_millis r;
  mret (ms mod 17 =? 0).

(** The [try] block catches the [KeyError] of either subscript. *)
Definition valid_existing_version (r : run) (v : version_cfg) : M bool :=
  try_except
    (sel ← liftR (subscript (values r) (variable_id v));
     bad ← liftR (subscript (invalid_ver v) (platform r));
     mret (negb (bool_decide (sel ∈ bad))))
    (fun e =>
       match e with
       | KeyError =>
           Some (emit (EvLog (LogPlatformError (platform r)));; mret true)
       | _ => None
       end).

(** [run["videos"]["links"]] *)
Definition video_links (r : run) : result (list link) :=
  match videos r with
  | VideosMissing => Err KeyError
  | VideosNull => Err TypeError
  | VideosLinks l => Ok l
  end.

(** [urlparse(s)] on a [str]. *)
Definition parse_url (w : world) (s : string) : result ParseResult :=
  match urlparse w s with
  | Some par => Ok par
  | None => Err ValueError
  end.

(** The [for i, x in enumerate(link_list)] loop: the parse result of the
    first link whose host contains ['twitch.tv'], if any.  The links are
    parsed one after the other up to that link, and a link that
    [urlparse] refuses ends the loop with its [ValueError]. *)
Fixpoint find_twitch (w : world) (ls : list link)
    : result (option ParseResult) :=
  match ls with
  | [] => Ok None
  | x :: rest =>
      match parse_url w (uri x) with
      | Err e => Err e
      | Ok par =>
          if substring_in "twitch.tv" (netloc par) then Ok (Some par)
          else find_twitch w rest
      end
  end.

(** [int(s)] on a [str]. *)
Definition parse_int (w : world) (s : string) : result Z :=
  match int_of_str w s with
  | Some n => Ok n
  | None => Err ValueError
  end.

Definition valid_persistent_vod (w : world) (gi j : nat) (r : run) : M bool :=
  try_except
    (link_list ← liftR (video_links r);
     found ← liftR (find_twitch w link_list);
     match found with
     | None => mret true
     | Some par_res =>
         try_except
           (seg ← liftR (index (split_on "/" (path par_res)) 2);
            vid_id ← liftR (parse_int w seg);
            emit (EvLookup vid_id);;
            vids ← liftR (get_videos w gi j vid_id);
            vid_data ← liftR (index vids 0);
            mret (negb (bool_decide (vtype vid_data = "archive"))))
           (fun e =>
              match e with
              | IndexError | ValueError => Some (mret true)
              | _ => None
              end)
     end)
    (fun e =>
       match e with
       | KeyError => Some (mret false)
       | TwitchError => Some (emit (EvLog LogTwitchError);; mret true)
       | _ => None
       end).

(** ** Composing the rejection reason *)

(** [[REASON_TEXT[fault] for fault in faults]] *)
Fixpoint reason_texts (fs : list SubmissionErrors) : result (list string) :=
  match fs with
  | [] => Ok []
  | f :: rest =>
      t ← subscript REASON_TEXT (error_value f);
      ts ← reason_texts rest;
      mret (t :: ts)
  end.

(** ['s' if len(faults) > 1 else ''] *)
Definition plural (fs : list SubmissionErrors) : string :=
  if (1 <? length fs)%nat then "s" else "".

Definition full_reason (fs : list SubmissionErrors) : result string :=
  if (length fs <? 3)%nat then
    ts ← reason_texts fs;
    mret (BASE_REASON (plural fs) +:+ String.concat " || " ts)
  else Ok GENERIC_REASON.

(** ** One cycle: [CelesteLeaderboardBot.main] *)

(** The attributes of the bot that [main] reads or writes. *)
Record bot := {
  q_counter : nat;
  SRC_KEY : string;
  GAMES : list game
}.

Definition push_cache (id : string) (s : locals) : locals :=
  {| cache := cache s ++ [id];
     rejected := rejected s;
     faulty_runs := faulty_runs s |}.

Definition push_rejected (id : string) (s : locals) : locals :=
  {| cache := cache s;
     rejected := rejected s ++ [id];
     faulty_runs := faulty_runs s |}.

Definition push_faulty (ir : invalid_run) (s : locals) : locals :=
  {| cache := cache s;
     rejected := rejected s;
     faulty_runs := faulty_runs s ++ [ir] |}.

Definition clear_faulty (s : locals) : locals :=
  {| cache := cache s;
     rejected := rejected s;
     faulty_runs := [] |}.

(** [cache = list(set(cache + ignore))] and the same for [rejected].  The
    order of [list(set(...))] is the set's own; the lists are only ever
    tested for membership. *)
Definition merge_previous (ignore already_rejected : list string)
    (s : locals) : locals :=
  {| cache := remove_dups (cache s ++ ignore);
     rejected := remove_dups (rejected s ++ already_rejected);
     faulty_runs := faulty_runs s |}.

Definition add_fault (ok : bool) (f : SubmissionErrors)
    (fs : list SubmissionErrors) : list SubmissionErrors :=
  if ok then fs else fs ++ [f].

(** The validity checks of one run, in the order of [main]; the result is
    [invalid_run["faults"]]. *)
Definition check_run (w : world) (gi j : nat) (g : game) (r : run)
    : M (list SubmissionErrors) :=
  let fs := [] in
  emit (EvRule RuleRealTime (run_id r));;
  let fs := add_fault (valid_real_time r) ERROR_SUBMITTED_RTA fs in
  emit (EvRule RuleDefaultVersion (run_id r));;
  ok ← liftR (valid_default_version r (version g));
  let fs := add_fault ok ERROR_NO_VERSION fs in
  emit (EvRule RuleInGameTime (run_id r));;
  ok ← liftR (valid_in_game_time r);
  let fs := add_fault ok ERROR_INVALID_IGT fs in
  emit (EvRule RuleExistingVersion (run_id r));;
  ok ← valid_existing_version r (version g);
  let fs := add_fault ok ERROR_INVALID_VERSION fs in
  emit (EvRule RulePersistentVod (run_id r));;
  ok ← valid_persistent_vod w gi j r;
  let fs := add_fault ok ERROR_BAD_VOD fs in
  mret fs.

(** The body of [for this_run in new_runs]. *)
Definition visit_run (w : world) (ignore already_rejected : list string)
    (gi : nat) (g : game) (j : nat) (r : run) : M unit :=
  if bool_decide (run_id r ∈ already_rejected) then
    modify (push_rejected (run_id r))
  else
    modify (push_cache (run_id r));;
    if bool_decide (run_id r ∈ ignore) then mret tt
    else
      fs ← check_run w gi j g r;
      if (0 <? length fs)%nat then
        modify (push_faulty {| inv_id := run_id r; faults := fs |})
      else mret tt.

Fixpoint for_runs (w : world) (ignore already_rejected : list string)
    (gi : nat) (g : game) (j : nat) (rs : list run) : M unit :=
  match rs with
  | [] => mret tt
  | r :: rest =>
      visit_run w ignore already_rejected gi g j r;;
      for_runs w ignore already_rejected gi g (S j) rest
  end.

(** [urlopen(put_req)] *)
Definition send_put (w : world) (gi k : nat) (req : put_request) : M unit :=
  emit (EvPut req);;
  match urlopen_put w gi k req with
  | None => mret tt
  | Some e => raise e
  end.

(** The body of [for this_run in faulty_runs]. *)
Definition reject_run (w : world) (self : bot) (gi k : nat)
    (ir : invalid_run) : M unit :=
  reason ← liftR (full_reason (faults ir));
  emit (EvLog (LogFound (inv_id ir) (faults ir)));;
  send_put w gi k
    {| put_id := inv_id ir; put_key := SRC_KEY self;
       put_status := "rejected"; put_reason := reason |};;
  modify (push_rejected (inv_id ir));;
  emit (EvLog (LogRejected (inv_id ir))).

Fixpoint for_faulty (w : world) (self : bot) (gi k : nat)
    (irs : list invalid_run) : M unit :=
  match irs with
  | [] => mret tt
  | ir :: rest =>
      reject_run w self gi k ir;;
      for_faulty w self gi (S k) rest
  end.

(** ['desc' if random() < 0.5 else 'asc'] *)
Definition direction_of (n : Z) : string :=
  if n <? 2 ^ 52 then "desc" else "asc".

(** The [try] block of one game. *)
Definition game_body (w : world) (self : bot)
    (ignore already_rejected : list string) (gi : nat) (g : game)
    : M unit :=
  let rand_d := direction_of (random w gi) in
  orderby ← liftR (subscript QUERY_TABLE (q_counter self));
  let req := {| get_game := game_id g; get_direction := rand_d;
                get_orderby := orderby; get_max := randint w gi |} in
  emit (EvGet gi req);;
  new_runs ← liftR (urlopen_get w gi req);
  for_runs w ignore already_rejected gi g 0 new_runs;;
  irs ← gets faulty_runs;
  for_faulty w self gi 0 irs.

(** The two [except] clauses of one game: print, merge the previous
    lists, [break]. *)
Definition abort_cycle (ignore already_rejected : list string) (e : exn)
    : M bool :=
  emit (EvLog (LogAbort e));;
  modify (merge_previous ignore already_rejected);;
  mret false.

(** One iteration of [for game in self.GAMES]; [false] is [break]. *)
Definition do_game (w : world) (self : bot)
    (ignore already_rejected : list string) (gi : nat) (g : game)
    : M bool :=
  modify clear_faulty;;
  try_except
    (game_body w self ignore already_rejected gi g;; mret true)
    (fun e =>
       match e with
       | HTTPError | ConnectionError =>
           Some (abort_cycle ignore already_rejected e)
       | _ => None
       end).

(** [for game in self.GAMES]; the result tells whether the loop ran to
    its end ([true]) or was left by [break] ([false]). *)
Fixpoint for_games (w : world) (self : bot)
    (ignore already_rejected : list string) (gi : nat) (gs : list game)
    : M bool :=
  match gs with
  | [] => mret true
  | g :: rest =>
      do_game w self ignore already_rejected gi g ≫= fun go_on : bool =>
      if go_on then for_games w self ignore already_rejected (S gi) rest
      else mret false
  end.

(** [self.TTV_CLIENT.get_oauth()] in its [try]. *)
Definition refresh_oauth (w : world) : M unit :=
  try_except
    (emit EvOAuth;;
     match get_oauth w with
     | None => mret tt
     | Some e => raise e
     end)
    (fun e =>
       match e with
       | TwitchError => Some (emit (EvLog LogOAuthError))
       | _ => None
       end).

Definition fresh_locals : locals :=
  {| cache := []; rejected := []; faulty_runs := [] |}.

(** How a call of [main] ends: an exception leaves it, or it returns after
    advancing [self.q_counter]; [next] holds the arguments [cache] and
    [rejected] of the call the timer makes when [loop] is set. *)
Inductive outcome :=
| Crashed (e : exn)
| Returned (self' : bot) (next : option (list string * list string)).

Definition advance (self : bot) : bot :=
  {| q_counter := ((q_counter self + 1) mod size QUERY_TABLE)%nat;
     SRC_KEY := SRC_KEY self;
     GAMES := GAMES self |}.

Definition main (w : world) (self : bot)
    (ignore already_rejected : list string) (loop : bool)
    : list event * outcome :=
  match (refresh_oauth w;;
         for_games w self ignore already_rejected 0 (GAMES self))
          fresh_locals with
  | (t, s, Ok _) =>
      (t, Returned (advance self)
            (if loop then Some (cache s, rejected s) else None))
  | (t, _, Err e) => (t, Crashed e)
  end.

(** [__init__] *)
Definition new_bot (key : string) (games : list game) : bot :=
  {| q_counter := 0; SRC_KEY := key; GAMES := games |}.

(** [start] and the chain of timers: the bot and the arguments of the
    [n]-th call of [main] (counted from 0), when every earlier call
    returned; [ws c] is the world during call [c]. *)
Fixpoint cycle_input (ws : nat -> world) (self : bot) (n : nat)
    : option (bot * list string * list string) :=
  match n with
  | O => Some (self, [], [])
  | S n' =>
      match cycle_input ws self n' with
      | Some (b, ignore, already_rejected) =>
          match snd (main (ws n') b ignore already_rejected true) with
          | Returned b' (Some (c, r)) => Some (b', c, r)
          | _ => None
          end
      | None => None
      end
  end.

(** A computation that leaves the locals alone and whose events and
    result do not depend on them. *)
Definition stateless {A} (m : M A) : Prop :=
  exists t r, forall s, m s = (t, s, r).

(** ** Reading a trace *)

Definition rule_call (ev : event) : option (rule * string) :=
  match ev with
  | EvRule rl id => Some (rl, id)
  | _ => None
  end.

Definition put_call (ev : event) : option put_request :=
  match ev with
  | EvPut req => Some req
  | _ => None
  end.

Definition get_call (ev : event) : option (nat * get_request) :=
  match ev with
  | EvGet gi req => Some (gi, req)
  | _ => None
  end.

Definition abort_log (ev : event) : option exn :=
  match ev with
  | EvLog (LogAbort e) => Some e
  | _ => None
  end.

(** The rule predicates called, the reject calls issued, the fetches made
    and the aborts printed during a trace, in order. *)
Definition rule_calls (t : list event) : list (rule * string) :=
  omap rule_call t.

Definition put_calls (t : list event) : list put_request :=
  omap put_call t.

Definition get_calls (t : list event) : list (nat * get_request) :=
  omap get_call t.

Definition abort_logs (t : list event) : list exn :=
  omap abort_log t.

(** The ids of the runs a trace evaluates or rejects. *)
Definition touched (t : list event) : list string :=
  (rule_calls t).*2 ++ (put_id <$> put_calls t).

(** The request [main] builds for the game at position [gi]. *)
Definition request_of (w : world) (orderby : string) (gi : nat) (g : game)
    : get_request :=
  {| get_game := game_id g;
     get_direction := direction_of (random w gi);
     get_orderby := orderby;
     get_max := randint w gi |}.

(** The runs the cycle is answered for the games at the positions of
    [gs], counted from [gi]. *)
Fixpoint listed (w : world) (orderby : string) (gi : nat) (gs : list game)
    : list run :=
  match gs with
  | [] => []
  | g :: rest =>
      match urlopen_get w gi (request_of w orderby gi g) with
      | Ok rs => rs
      | Err _ => []
      end ++ listed w orderby (S gi) rest
  end.

(** Every event a computation emits satisfies [E]. *)
Definition emits {A} (E : event -> Prop) (m : M A) : Prop :=
  forall s, Forall E (m s).1.1.

(** The events of the rule predicates themselves: a Twitch lookup or one
    of their two prints. *)
Definition internal (ev : event) : Prop :=
  match ev with
  | EvLookup _ | EvLog (LogPlatformError _) | EvLog LogTwitchError => True
  | _ => False
  end.

(** The events and the result of [check_run], which do not depend on the
    locals. *)
Definition checked (w : world) (gi j : nat) (g : game) (r : run)
    : list event * result (list SubmissionErrors) :=
  let '(t, _, res) := check_run w gi j g r fresh_locals in (t, res).

Definition five_rules (id : string) : list (rule * string) :=
  [ (RuleRealTime, id); (RuleDefaultVersion, id); (RuleInGameTime, id);
    (RuleExistingVersion, id); (RulePersistentVod, id) ].

(** Of the ids of a fetched list: those appended to [cache], those
    appended to [rejected] because they were rejected before, and those
    that reach the validity checks. *)
Definition seen_ids (already_rejected : list string) (rs : list run)
    : list string :=
  filter (fun x => x ∉ already_rejected) (run_id <$> rs).

Definition relisted (already_rejected : list string) (rs : list run)
    : list string :=
  filter (fun x => x ∈ already_rejected) (run_id <$> rs).

Definition evaluated (ignore already_rejected : list string)
    (rs : list run) : list string :=
  filter (fun x => (x ∉ already_rejected) ∧ (x ∉ ignore)) (run_id <$> rs).

(** The entries [for_runs] appends to [faulty_runs] when it runs to its
    end: one for each occurrence of a run that reaches the checks and
    comes out of them with at least one fault. *)
Fixpoint found_faulty (w : world) (ignore already_rejected : list string)
    (gi : nat) (g : game) (j : nat) (rs : list run) : list invalid_run :=
  match rs with
  | [] => []
  | r :: rest =>
      (if bool_decide ((run_id r ∉ already_rejected) ∧ (run_id r ∉ ignore))
       then match (checked w gi j g r).2 with
            | Ok (f :: fs) => [ {| inv_id := run_id r; faults := f :: fs |} ]
            | _ => []
            end
       else [])
      ++ found_faulty w ignore already_rejected gi g (S j) rest
  end.

(** The number of occurrences of [id] in a fetched list, counted from
    position [j], whose checks end with at least one fault. *)
Fixpoint faulty_occurrences (w : world) (gi : nat) (g : game) (id : string)
    (j : nat) (rs : list run) : nat :=
  match rs with
  | [] => 0
  | r :: rest =>
      (if bool_decide (run_id r = id) then
         match (checked w gi j g r).2 with
         | Ok (_ :: _) => 1
         | _ => 0
         end
       else 0)
      + faulty_occurrences w gi g id (S j) rest
  end%nat.


(** The fetches of a cycle that meets no failure, for the games [gs]
    counted from position [gi]. *)
Fixpoint requests (w : world) (orderby : string) (gi : nat) (gs : list game)
    : list (nat * get_request) :=
  match gs with
  | [] => []
  | g :: rest =>
      (gi, request_of w orderby gi g) :: requests w orderby (S gi) rest
  end.

(** ** Concrete inputs *)

Module Demo.

Definition ver : version_cfg :=
  {| variable_id := "ver"; default_ver := "none";
     invalid_ver := {[ "pc" := ["switch-only"] ]} |}.

Definition celeste : game := {| game_id := "celeste"; version := ver |}.

(** [32.062] as [json.loads] reads it: [0x1.007ef9db22d0ep+5]. *)
Definition igt_32062 : spec_float :=
  S754_finite false 0x1007ef9db22d0e (-47).

(** A run without fault: no real time, an in-game time of 0.0 s, a
    version that exists on its platform, one link that is not on Twitch. *)
Definition clean (id : string) : run :=
  {| run_id := id; realtime_t := PyInt 0; ingame_t := PyFloat (float_of_int 0);
     values := {[ "ver" := "1.4" ]}; platform := "pc";
     videos := VideosLinks [ {| uri := "https://youtu.be/x" |} ] |}.

(** The same run with a real time submitted. *)
Definition with_rta (id : string) : run :=
  {| run_id := id; realtime_t := PyInt 5; ingame_t := ingame_t (clean id);
     values := values (clean id); platform := "pc";
     videos := videos (clean id) |}.

(** The same run with an in-game time of 32.062 s. *)
Definition with_igt_32062 (id : string) : run :=
  {| run_id := id; realtime_t := PyInt 0; ingame_t := PyFloat igt_32062;
     values := values (clean id); platform := "pc";
     videos := videos (clean id) |}.

(** The same run with an empty list of links. *)
Definition without_links (id : string) : run :=
  {| run_id := id; realtime_t := PyInt 0; ingame_t := ingame_t (clean id);
     values := values (clean id); platform := "pc";
     videos := VideosLinks [] |}.

(** The same run with no value selected for the version variable. *)
Definition without_version (id : string) : run :=
  {| run_id := id; realtime_t := PyInt 0; ingame_t := ingame_t (clean id);
     values := ∅; platform := "pc";
     videos := videos (clean id) |}.

(** A world where every call succeeds and game [gi] lists [fetch gi]. *)
Definition calm (fetch : nat -> list run) : world :=
  {| urlparse := fun s => Some {| netloc := s; path := "" |};
     int_of_str := fun _ => None;
     get_oauth := None;
     random := fun _ => 0;
     randint := fun _ => 100;
     urlopen_get := fun gi _ => Ok (fetch gi);
     urlopen_put := fun _ _ _ => None;
     get_videos := fun _ _ _ => Ok [] |}.

(** The same world where the fetch of game [bad] fails with [e]. *)
Definition failing (fetch : nat -> list run) (bad : nat) (e : exn) : world :=
  {| urlparse := urlparse (calm fetch);
     int_of_str := int_of_str (calm fetch);
     get_oauth := None;
     random := random (calm fetch);
     randint := randint (calm fetch);
     urlopen_get := fun gi req =>
       if bool_decide (gi = bad) then Err e else Ok (fetch gi);
     urlopen_put := urlopen_put (calm fetch);
     get_videos := get_videos (calm fetch) |}.

Definition one_game : bot := new_bot "key" [celeste].
Definition two_games : bot := new_bot "key" [celeste; celeste].

End Demo.

(** ** More readings of a run, a trace and the bot *)

(** The members of [SubmissionErrors] in the order of the checks. *)
Definition all_faults : list SubmissionErrors :=
  [ ERROR_SUBMITTED_RTA; ERROR_NO_VERSION; ERROR_INVALID_IGT;
    ERROR_INVALID_VERSION; ERROR_BAD_VOD ].

(** ['twitch.tv' in urlparse(x["uri"]).netloc]; [None] when [urlparse]
    raises. *)
Definition is_twitch (w : world) (x : link) : option bool :=
  par ← urlparse w (uri x);
  Some (substring_in "twitch.tv" (netloc par)).

(** The run [r] with [run["videos"]["links"]] set to [ls]. *)
Definition with_links (r : run) (ls : list link) : run :=
  {| run_id := run_id r; realtime_t := realtime_t r;
     ingame_t := ingame_t r; values := values r; platform := platform r;
     videos := VideosLinks ls |}.

Definition lookup_call (ev : event) : option Z :=
  match ev with
  | EvLookup vid => Some vid
  | _ => None
  end.

Definition rejected_log (ev : event) : option string :=
  match ev with
  | EvLog (LogRejected id) => Some id
  | _ => None
  end.

(** The Twitch lookups made and the rejections printed during a trace. *)
Definition lookup_calls (t : list event) : list Z :=
  omap lookup_call t.

Definition rejected_logs (t : list event) : list string :=
  omap rejected_log t.

(** A reject call is justified when it rejects, with the bot's key, a run
    that was fetched for one of the games during this call of [main], is
    in neither previous list and came out of its checks with a list of at
    least one fault, and when it carries the reason composed from that
    list. *)
Definition justified (w : world) (self : bot)
    (ignore already_rejected : list string) (req : put_request) : Prop :=
  put_status req = "rejected"
  /\ put_key req = SRC_KEY self
  /\ (put_id req ∉ ignore) /\ (put_id req ∉ already_rejected)
  /\ exists gi g ob rs j r f fs,
       GAMES self !! gi = Some g
       /\ QUERY_TABLE !! q_counter self = Some ob
       /\ urlopen_get w gi (request_of w ob gi g) = Ok rs
       /\ rs !! j = Some r
       /\ run_id r = put_id req
       /\ (checked w gi j g r).2 = Ok (f :: fs)
       /\ full_reason (f :: fs) = Ok (put_reason req).

(** The reject call [reject_run] sends for an entry of [faulty_runs]. *)
Definition put_of (self : bot) (ir : invalid_run) (reason : string)
    : put_request :=
  {| put_id := inv_id ir; put_key := SRC_KEY self;
     put_status := "rejected"; put_reason := reason |}.

(** [start]: the first call of [main]. *)
Definition start (w : world) (self : bot) : list event * outcome :=
  main w self [] [] true.

(** The number of occurrences of the character [c] in [s]. *)
Fixpoint count_char (c : ascii) (s : string) : nat :=
  match s with
  | EmptyString => 0
  | String c' rest =>
      (if bool_decide (c' = c) then 1 else 0) + count_char c rest
  end%nat.

(** What holds between the locals [s] before and [s'] after a stretch of
    a cycle with trace [t]: every reject call is justified; every run
    evaluated or sent to the reject call is in [cache]; [cache] and
    [rejected] lose nothing; an id enters [rejected] only from the
    previous [rejected] list or after a reject call that succeeded; and
    every rejection that succeeded is in [rejected]. *)
Definition cycle_inv (w : world) (self : bot)
    (ignore already_rejected : list string)
    (s : locals) (t : list event) (s' : locals) : Prop :=
  Forall (justified w self ignore already_rejected) (put_calls t)
  /\ Forall (fun x => x ∈ cache s') (touched t)
  /\ (forall x, x ∈ cache s -> x ∈ cache s')
  /\ (forall x, x ∈ rejected s -> x ∈ rejected s')
  /\ (forall x, x ∈ rejected s' ->
        x ∈ rejected s \/ x ∈ already_rejected \/ x ∈ rejected_logs t)
  /\ Forall (fun x => x ∈ rejected s') (rejected_logs t)
  /\ Forall (fun x => x ∈ put_id <$> put_calls t) (rejected_logs t).

(** The world [Demo.calm] where the token refresh raises [e]. *)
Definition refusing_token (fetch : nat -> list run) (e : exn) : world :=
  {| urlparse := urlparse (Demo.calm fetch);
     int_of_str := int_of_str (Demo.calm fetch);
     get_oauth := Some e;
     random := random (Demo.calm fetch);
     randint := randint (Demo.calm fetch);
     urlopen_get := urlopen_get (Demo.calm fetch);
     urlopen_put := urlopen_put (Demo.calm fetch);
     get_videos := get_videos (Demo.calm fetch) |}.

(** The world [Demo.calm] where [urlparse] refuses a string with an
    opening bracket and no closing one, as it does for a host. *)
Definition refusing_brackets (fetch : nat -> list run) : world :=
  {| urlparse := fun s =>
       if substring_in "[" s && negb (substring_in "]" s) then None
       else urlparse (Demo.calm fetch) s;
     int_of_str := int_of_str (Demo.calm fetch);
     get_oauth := None;
     random := random (Demo.calm fetch);
     randint := randint (Demo.calm fetch);
     urlopen_get := urlopen_get (Demo.calm fetch);
     urlopen_put := urlopen_put (Demo.calm fetch);
     get_videos := get_videos (Demo.calm fetch) |}.

(** * Properties *)

(** ** The monad *)

Lemma run_bind {A B} (m : M A) (f : A -> M B) (s : locals) :
  (m ≫= f) s =
  match m s with
  | (t1, s1, Ok a) =>
      match f a s1 with
      | (t2, s2, r) => (t1 ++ t2, s2, r)
      end
  | (t1, s1, Err e) => (t1, s1, Err e)
  end.
Proof. reflexivity. Qed.

Lemma bind_inv {A B} (m : M A) (f : A -> M B) s t s' r :
  (m ≫= f) s = (t, s', r) ->
  (exists t1 s1 a t2,
      m s = (t1, s1, Ok a) /\ f a s1 = (t2, s', r) /\ t = t1 ++ t2)
  \/ (exists e, m s = (t, s', Err e) /\ r = Err e).
Proof.
  rewrite run_bind.
  destruct (m s) as [[t1 s1] [a|e]].
  - destruct (f a s1) as [[t2 s2] r2] eqn:Hf.
    intros [= <- <- <-]. left. by exists t1, s1, a, t2.
  - intros [= <- <- <-]. right. by exists e.
Qed.

Lemma stateless_ret {A} (a : A) : stateless (mret a).
Proof. by exists [], (Ok a). Qed.

Lemma stateless_emit ev : stateless (emit ev).
Proof. by exists [ev], (Ok tt). Qed.

Lemma stateless_liftR {A} (r : result A) : stateless (liftR r).
Proof. by exists [], r. Qed.

Lemma stateless_raise {A} e : stateless (@raise A e).
Proof. by exists [], (Err e). Qed.

Lemma stateless_bind {A B} (m : M A) (f : A -> M B) :
  stateless m -> (forall a, stateless (f a)) -> stateless (m ≫= f).
Proof.
  intros (t1 & r1 & Hm) Hf. destruct r1 as [a|e].
  - destruct (Hf a) as (t2 & r2 & Hfa).
    exists (t1 ++ t2), r2. intros s. by rewrite run_bind, Hm, Hfa.
  - exists t1, (Err e). intros s. by rewrite run_bind, Hm.
Qed.

Lemma stateless_try {A} (m : M A) (h : exn -> option (M A)) :
  stateless m ->
  (forall e k, h e = Some k -> stateless k) ->
  stateless (try_except m h).
Proof.
  intros (t1 & r1 & Hm) Hh. destruct r1 as [a|e].
  - exists t1, (Ok a). intros s. unfold try_except. by rewrite Hm.
  - destruct (h e) as [k|] eqn:He.
    + destruct (Hh e k He) as (t2 & r2 & Hk).
      exists (t1 ++ t2), r2. intros s. unfold try_except.
      by rewrite Hm, He, Hk.
    + exists t1, (Err e). intros s. unfold try_except. by rewrite Hm, He.
Qed.

(** ** The rule predicates *)

Lemma valid_existing_version_stateless r v :
  stateless (valid_existing_version r v).
Proof.
  apply stateless_try.
  - repeat (apply stateless_bind; [apply stateless_liftR | intros ?]).
    apply stateless_ret.
  - intros [] k [= <-].
    apply stateless_bind; [apply stateless_emit | intros ?].
    apply stateless_ret.
Qed.

Lemma valid_persistent_vod_stateless w gi j r :
  stateless (valid_persistent_vod w gi j r).
Proof.
  apply stateless_try.
  - apply stateless_bind; [apply stateless_liftR | intros ls].
    apply stateless_bind; [apply stateless_liftR | intros found].
    destruct found; [| apply stateless_ret].
    apply stateless_try.
    + repeat (apply stateless_bind;
              [first [apply stateless_liftR | apply stateless_emit]
              | intros ?]).
      apply stateless_ret.
    + intros [] k [= <-]; apply stateless_ret.
  - intros [] k [= <-]; [apply stateless_ret |].
    apply stateless_bind; [apply stateless_emit | intros ?].
    apply stateless_ret.
Qed.

Lemma check_run_stateless w gi j g r : stateless (check_run w gi j g r).
Proof.
  unfold check_run.
  repeat (apply stateless_bind;
          [first [apply stateless_liftR | apply stateless_emit
                 | apply valid_existing_version_stateless
                 | apply valid_persistent_vod_stateless]
          | intros ?]).
  apply stateless_ret.
Qed.

(** C7.  A list of one fault gives the singular prefix followed by that
    fault's text; a list of two gives the plural prefix followed by the
    two texts, in the order of the list, joined by [" || "]; a list of
    three or more gives the fixed message, whatever the faults.  The
    reject call of a faulty run carries that string as its reason. *)
Theorem full_reason_by_length :
  (forall f, exists t,
      REASON_TEXT !! error_value f = Some t
      /\ full_reason [f] = Ok (BASE_REASON "" +:+ t))
  /\ (forall f1 f2, exists t1 t2,
         REASON_TEXT !! error_value f1 = Some t1
         /\ REASON_TEXT !! error_value f2 = Some t2
         /\ full_reason [f1; f2]
            = Ok (BASE_REASON "s" +:+ t1 +:+ " || " +:+ t2))
  /\ (forall f1 f2 f3 fs,
         full_reason (f1 :: f2 :: f3 :: fs) = Ok GENERIC_REASON)
  /\ (forall w self gi k ir s,
         put_reason <$> put_calls (reject_run w self gi k ir s).1.1
         = match full_reason (faults ir) with
           | Ok reason => [reason]
           | Err _ => []
           end).
Proof.
  split; [| split; [| split]].
  - intros []; eexists; split; vm_compute; reflexivity.
  - intros [] []; do 2 eexists; (split; [| split]); vm_compute; reflexivity.
  - reflexivity.
  - intros w self gi k ir s.
    unfold reject_run, send_put. rewrite !run_bind. unfold liftR.
    destruct (full_reason (faults ir)) as [reason|e]; [| done].
    cbn. by destruct (urlopen_put w gi k _).
Qed.

Lemma valid_in_game_time_spec r ms :
  ingame_millis r = Ok ms ->
  (exists b, valid_in_game_time r = Ok b)
  /\ (valid_in_game_time r = Ok true <-> (17 | ms)).
Proof.
  intros H. unfold valid_in_game_time. rewrite H. cbn.
  split; [by eexists |].
  destruct (Z.eqb_spec (ms mod 17) 0) as [E|E].
  - split; [intros _ | done]. by apply Z.mod_divide.
  - split; [done | intros D]. by apply Z.mod_divide in D.
Qed.

Lemma ingame_millis_int r z :
  ingame_t r = PyInt z -> ingame_millis r = Ok (1000 * z).
Proof. unfold ingame_millis. by intros ->. Qed.

(** C8, at the in-game time 32.062 s.  The binary64 value that the JSON
    literal [32.062] denotes is the one nearest to 32062/1000; 32062 ms
    is a multiple of 17 ms; [int(1000 * t)] is 32061 for it, so the
    predicate answers [False] and the run gets [ERROR_INVALID_IGT] as
    its only fault. *)
Theorem valid_in_game_time_truncates :
  nearest_to 32062 1000 Demo.igt_32062
  /\ (17 | 32062)
  /\ ingame_millis (Demo.with_igt_32062 "a") = Ok 32061
  /\ valid_in_game_time (Demo.with_igt_32062 "a") = Ok false
  /\ forall gi j s,
       check_run (Demo.calm (fun _ => [])) gi j Demo.celeste
         (Demo.with_igt_32062 "a") s
       = ([EvRule RuleRealTime "a"; EvRule RuleDefaultVersion "a";
           EvRule RuleInGameTime "a"; EvRule RuleExistingVersion "a";
           EvRule RulePersistentVod "a"], s, Ok [ERROR_INVALID_IGT]).
Proof.
  split; [| split; [| split; [| split]]].
  - repeat split; vm_compute; congruence.
  - exists 1886. reflexivity.
  - reflexivity.
  - reflexivity.
  - intros gi j s. reflexivity.
Qed.

(** C3, at an empty list of links.  Whatever the rest of the run and
    whatever the Twitch client answers, [valid_persistent_vod] returns
    [True] for a run whose ["links"] list is empty, without any lookup;
    it returns [False] when ["videos"] or ["links"] is missing, and lets
    a [TypeError] out when ["videos"] is [null]. *)
Theorem valid_persistent_vod_without_links :
  forall w gi j id rt igt vals plat s,
    valid_persistent_vod w gi j
      {| run_id := id; realtime_t := rt; ingame_t := igt; values := vals;
         platform := plat; videos := VideosLinks [] |} s
    = ([], s, Ok true)
    /\ valid_persistent_vod w gi j
         {| run_id := id; realtime_t := rt; ingame_t := igt; values := vals;
            platform := plat; videos := VideosMissing |} s
       = ([], s, Ok false)
    /\ valid_persistent_vod w gi j
         {| run_id := id; realtime_t := rt; ingame_t := igt; values := vals;
            platform := plat; videos := VideosNull |} s
       = ([], s, Err TypeError).
Proof. intros. repeat split. Qed.

(** C4, failing input: a run that has no value for the version variable
    makes [valid_default_version] raise [KeyError]. *)
Lemma valid_default_version_raises :
  valid_default_version (Demo.without_version "a") Demo.ver = Err KeyError
  /\ ~ exists b,
         valid_default_version (Demo.without_version "a") Demo.ver = Ok b.
Proof. split; [reflexivity |]. intros [b H]. discriminate H. Qed.

(** C4.  [valid_existing_version] returns a boolean for every run, and
    for a run whose [run["values"]] has no entry for [variable_id] its
    handler prints the message and returns [True].
    [valid_default_version] reads the same entry without a handler: for
    such a run it raises [KeyError], and so do the checks of the run in
    [main], after the calls of the first two rules; when the entry is
    there, it returns whether the entry differs from [default_ver]. *)
Theorem version_rules_on_missing_variable (r : run) (v : version_cfg) :
  (exists t b, forall s, valid_existing_version r v s = (t, s, Ok b))
  /\ (values r !! variable_id v = None ->
      (forall s, valid_existing_version r v s
                 = ([EvLog (LogPlatformError (platform r))], s, Ok true))
      /\ valid_default_version r v = Err KeyError
      /\ (forall w gi j g s,
            version g = v ->
            check_run w gi j g r s
            = ([EvRule RuleRealTime (run_id r);
                EvRule RuleDefaultVersion (run_id r)], s, Err KeyError)))
  /\ (forall sel, values r !! variable_id v = Some sel ->
      valid_default_version r v
      = Ok (negb (bool_decide (sel = default_ver v)))).
Proof.
  split; [| split].
  - unfold valid_existing_version, try_except, subscript.
    destruct (values r !! variable_id v) as [sel|];
      [destruct (invalid_ver v !! platform r) as [bad|] |];
      do 2 eexists; intros s; reflexivity.
  - intros H. split; [| split].
    + unfold valid_existing_version, try_except, subscript.
      by rewrite H.
    + unfold valid_default_version, subscript. by rewrite H.
    + intros w gi j g s <-. unfold check_run.
      rewrite !run_bind. unfold emit at 1. rewrite !run_bind.
      unfold emit at 1. unfold liftR at 1.
      unfold valid_default_version, subscript. by rewrite H.
  - intros sel H. unfold valid_default_version, subscript. by rewrite H.
Qed.

Lemma version_rules_on_missing_variable_witness :
  valid_default_version (Demo.without_version "a") Demo.ver = Err KeyError
  /\ (check_run (Demo.calm (fun _ => [])) 0 0 Demo.celeste
        (Demo.without_version "a") fresh_locals).2
     = Err KeyError
  /\ valid_default_version (Demo.clean "a") Demo.ver = Ok true.
Proof.
  destruct (version_rules_on_missing_variable
              (Demo.without_version "a") Demo.ver) as (_ & H & _).
  destruct (version_rules_on_missing_variable
              (Demo.clean "a") Demo.ver) as (_ & _ & H').
  destruct H as (_ & H1 & H2); [reflexivity |].
  split; [exact H1 |]. split.
  - rewrite (H2 (Demo.calm (fun _ => [])) 0%nat 0%nat Demo.celeste
               fresh_locals); reflexivity.
  - apply (H' "1.4"). reflexivity.
Defined.

(** ** Traces of the rule predicates *)

Lemma emits_ret {A} E (a : A) : emits E (mret a).
Proof. intros s. constructor. Qed.

Lemma emits_liftR {A} E (r : result A) : emits E (liftR r).
Proof. intros s. constructor. Qed.

Lemma emits_emit (E : event -> Prop) ev : E ev -> emits E (emit ev).
Proof. intros H s. by repeat constructor. Qed.

Lemma emits_bind {A B} E (m : M A) (f : A -> M B) :
  emits E m -> (forall a, emits E (f a)) -> emits E (m ≫= f).
Proof.
  intros Hm Hf s. rewrite run_bind. specialize (Hm s).
  destruct (m s) as [[t1 s1] [a|e]]; [| done].
  specialize (Hf a s1). destruct (f a s1) as [[t2 s2] r]. cbn in *.
  by apply Forall_app.
Qed.

Lemma emits_try {A} E (m : M A) (h : exn -> option (M A)) :
  emits E m -> (forall e k, h e = Some k -> emits E k) ->
  emits E (try_except m h).
Proof.
  intros Hm Hh s. unfold try_except. specialize (Hm s).
  destruct (m s) as [[t1 s1] [a|e]]; [done |].
  destruct (h e) as [k|] eqn:He; [| done].
  specialize (Hh e k He s1). destruct (k s1) as [[t2 s2] r]. cbn in *.
  by apply Forall_app.
Qed.

Lemma valid_existing_version_internal r v :
  emits internal (valid_existing_version r v).
Proof.
  apply emits_try.
  - repeat (apply emits_bind; [apply emits_liftR | intros ?]).
    apply emits_ret.
  - intros [] k [= <-].
    apply emits_bind; [by apply emits_emit | intros ?]. apply emits_ret.
Qed.

Lemma valid_persistent_vod_internal w gi j r :
  emits internal (valid_persistent_vod w gi j r).
Proof.
  apply emits_try.
  - apply emits_bind; [apply emits_liftR | intros ls].
    apply emits_bind; [apply emits_liftR | intros found].
    destruct found; [| apply emits_ret].
    apply emits_try.
    + repeat (apply emits_bind;
              [first [apply emits_liftR | by apply emits_emit] | intros ?]).
      apply emits_ret.
    + intros [] k [= <-]; apply emits_ret.
  - intros [] k [= <-]; [apply emits_ret |].
    apply emits_bind; [by apply emits_emit | intros ?]. apply emits_ret.
Qed.

Lemma internal_calls t :
  Forall internal t ->
  rule_calls t = [] /\ put_calls t = [] /\ get_calls t = []
  /\ abort_logs t = [].
Proof.
  induction 1 as [|ev t Hev _ (IH1 & IH2 & IH3 & IH4)]; [done |].
  unfold rule_calls, put_calls, get_calls, abort_logs in *. cbn.
  rewrite IH1, IH2, IH3, IH4.
  by destruct ev as [| | | | |[]].
Qed.

Lemma check_run_eq w gi j g r s :
  check_run w gi j g r s
  = ((checked w gi j g r).1, s, (checked w gi j g r).2).
Proof.
  destruct (check_run_stateless w gi j g r) as (t & res & H).
  unfold checked. by rewrite !H.
Qed.

Lemma omap_cons_eq {A B} (f : A -> option B) x l :
  omap f (x :: l)
  = match f x with Some y => y :: omap f l | None => omap f l end.
Proof. reflexivity. Qed.

Ltac split_calls :=
  unfold rule_calls, put_calls, get_calls, abort_logs in *;
  repeat first [rewrite omap_app | rewrite omap_cons_eq].

Lemma checked_calls w gi j g r :
  put_calls (checked w gi j g r).1 = []
  /\ get_calls (checked w gi j g r).1 = []
  /\ abort_logs (checked w gi j g r).1 = []
  /\ rule_calls (checked w gi j g r).1 `prefix_of` five_rules (run_id r)
  /\ (forall fs, (checked w gi j g r).2 = Ok fs ->
      rule_calls (checked w gi j g r).1 = five_rules (run_id r)).
Proof.
  unfold checked, check_run.
  destruct (valid_existing_version_stateless r (version g))
    as (t4 & r4 & H4).
  destruct (valid_persistent_vod_stateless w gi j r) as (t5 & r5 & H5).
  pose proof (valid_existing_version_internal r (version g) fresh_locals)
    as I4.
  pose proof (valid_persistent_vod_internal w gi j r fresh_locals) as I5.
  rewrite H4 in I4. rewrite H5 in I5. cbn in I4, I5.
  apply internal_calls in I4 as (A1 & A2 & A3 & A4).
  apply internal_calls in I5 as (B1 & B2 & B3 & B4).
  unfold rule_calls, put_calls, get_calls, abort_logs in *.
  rewrite !run_bind. unfold liftR, emit.
  destruct (valid_default_version r (version g)) as [b2|e2];
    [| cbn; repeat split; first [done | by eexists]].
  rewrite !run_bind.
  destruct (valid_in_game_time r) as [b3|e3];
    [| cbn; repeat split; first [done | by eexists]].
  rewrite !run_bind, H4.
  destruct r4 as [b4|e4]; cbn -[omap];
    [| split_calls; rewrite ?A1, ?A2, ?A3, ?A4; cbn;
       repeat split; first [done | by eexists]].
  rewrite !run_bind, H5.
  destruct r5 as [b5|e5]; cbn -[omap];
    split_calls; rewrite ?A1, ?A2, ?A3, ?A4, ?B1, ?B2, ?B3, ?B4; cbn;
    repeat split; first [done | by eexists].
Qed.

(** ** The two inner loops *)

Lemma visit_run_eq w ig ar gi g j r s :
  visit_run w ig ar gi g j r s =
  if bool_decide (run_id r ∈ ar) then
    ([], push_rejected (run_id r) s, Ok tt)
  else if bool_decide (run_id r ∈ ig) then
    ([], push_cache (run_id r) s, Ok tt)
  else
    match (checked w gi j g r).2 with
    | Ok fs =>
        ((checked w gi j g r).1,
         if (0 <? length fs)%nat then
           push_faulty {| inv_id := run_id r; faults := fs |}
             (push_cache (run_id r) s)
         else push_cache (run_id r) s,
         Ok tt)
    | Err e => ((checked w gi j g r).1, push_cache (run_id r) s, Err e)
    end.
Proof.
  unfold visit_run. case_bool_decide; [done |].
  rewrite run_bind. unfold modify. case_bool_decide; [done |].
  rewrite run_bind, check_run_eq.
  destruct (checked w gi j g r) as [t [[|f fs]|e]]; cbn;
    by rewrite ?app_nil_r.
Qed.

Lemma for_runs_cons w ig ar gi g j r rest s :
  for_runs w ig ar gi g j (r :: rest) s =
  match visit_run w ig ar gi g j r s with
  | (t1, s1, Ok _) =>
      match for_runs w ig ar gi g (S j) rest s1 with
      | (t2, s2, res) => (t1 ++ t2, s2, res)
      end
  | (t1, s1, Err e) => (t1, s1, Err e)
  end.
Proof. reflexivity. Qed.

Lemma for_runs_ok w ig ar gi g rs : forall j s t s',
  for_runs w ig ar gi g j rs s = (t, s', Ok tt) ->
  cache s' = cache s ++ seen_ids ar rs
  /\ rejected s' = rejected s ++ relisted ar rs
  /\ faulty_runs s' = faulty_runs s ++ found_faulty w ig ar gi g j rs
  /\ rule_calls t = mjoin (five_rules <$> evaluated ig ar rs).
Proof.
  unfold seen_ids, relisted, evaluated.
  induction rs as [|r rest IH]; intros j s t s'.
  - intros [= <- <-]. cbn. by rewrite !app_nil_r.
  - rewrite for_runs_cons, visit_run_eq. cbn [found_faulty].
    rewrite !fmap_cons, !filter_cons.
    pose proof (checked_calls w gi j g r) as (_ & _ & _ & _ & Hfive).
    repeat case_bool_decide; repeat case_decide; try (exfalso; tauto);
      destruct (checked w gi j g r) as [tc [fs|e]]; cbn [fst snd] in *;
      try done;
      destruct (for_runs w ig ar gi g (S j) rest _) as [[t2 s2] res] eqn:E;
      intros [= <- <- ->]; apply IH in E as (-> & -> & -> & E4);
      unfold rule_calls in *; rewrite ?omap_app, ?(Hfive fs eq_refl), E4;
      try destruct fs as [|f fs]; cbn; rewrite <- ?app_assoc; done.
Qed.

Lemma for_runs_calls w ig ar gi g rs : forall j s t s' res,
  for_runs w ig ar gi g j rs s = (t, s', res) ->
  put_calls t = [] /\ get_calls t = [] /\ abort_logs t = []
  /\ Forall (fun x => (x ∉ ar) ∧ (x ∉ ig)) (rule_calls t).*2.
Proof.
  induction rs as [|r rest IH]; intros j s t s' res.
  - by intros [= <- <- <-].
  - rewrite for_runs_cons, visit_run_eq.
    pose proof (checked_calls w gi j g r) as (C1 & C2 & C3 & C4 & _).
    assert (run_id r ∉ ar -> run_id r ∉ ig ->
            Forall (fun x => (x ∉ ar) ∧ (x ∉ ig))
              (rule_calls (checked w gi j g r).1).*2) as C5.
    { intros Har Hig. destruct C4 as [k C4].
      assert (Forall (fun x => (x ∉ ar) ∧ (x ∉ ig)) (five_rules (run_id r)).*2)
        as F by (cbn; repeat constructor; done).
      rewrite C4, fmap_app in F. by apply Forall_app in F as [F _]. }
    destruct (bool_decide (run_id r ∈ ar)) eqn:Har.
    { destruct (for_runs w ig ar gi g (S j) rest _) as [[t2 s2] r2] eqn:E.
      intros [= <- <- <-]. by apply IH in E. }
    apply bool_decide_eq_false in Har.
    destruct (bool_decide (run_id r ∈ ig)) eqn:Hig.
    { destruct (for_runs w ig ar gi g (S j) rest _) as [[t2 s2] r2] eqn:E.
      intros [= <- <- <-]. by apply IH in E. }
    apply bool_decide_eq_false in Hig. specialize (C5 Har Hig).
    destruct (checked w gi j g r) as [tc [fs|e]]; cbn [fst snd] in *.
    + destruct (for_runs w ig ar gi g (S j) rest _) as [[t2 s2] r2] eqn:E.
      intros [= <- <- <-]. apply IH in E as (E1 & E2 & E3 & E4).
      unfold rule_calls, put_calls, get_calls, abort_logs in *.
      rewrite !omap_app, C1, C2, C3, E1, E2, E3, fmap_app.
      repeat split; try done. by apply Forall_app.
    + by intros [= <- <- <-].
Qed.

Lemma reject_run_eq w self gi k ir s :
  reject_run w self gi k ir s =
  match full_reason (faults ir) with
  | Err e => ([], s, Err e)
  | Ok reason =>
      let req := {| put_id := inv_id ir; put_key := SRC_KEY self;
                    put_status := "rejected"; put_reason := reason |} in
      match urlopen_put w gi k req with
      | None =>
          ([EvLog (LogFound (inv_id ir) (faults ir)); EvPut req;
            EvLog (LogRejected (inv_id ir))],
           push_rejected (inv_id ir) s, Ok tt)
      | Some e =>
          ([EvLog (LogFound (inv_id ir) (faults ir)); EvPut req], s, Err e)
      end
  end.
Proof.
  unfold reject_run, send_put. rewrite !run_bind. unfold liftR.
  destruct (full_reason (faults ir)) as [reason|e]; [| done].
  cbn. by destruct (urlopen_put w gi k _).
Qed.

Lemma for_faulty_cons w self gi k ir rest s :
  for_faulty w self gi k (ir :: rest) s =
  match reject_run w self gi k ir s with
  | (t1, s1, Ok _) =>
      match for_faulty w self gi (S k) rest s1 with
      | (t2, s2, res) => (t1 ++ t2, s2, res)
      end
  | (t1, s1, Err e) => (t1, s1, Err e)
  end.
Proof. reflexivity. Qed.

Lemma for_faulty_ok w self gi irs : forall k s t s',
  for_faulty w self gi k irs s = (t, s', Ok tt) ->
  cache s' = cache s
  /\ rejected s' = rejected s ++ (inv_id <$> irs)
  /\ put_id <$> put_calls t = inv_id <$> irs.
Proof.
  induction irs as [|ir rest IH]; intros k s t s'.
  - intros [= <- <-]. cbn. by rewrite app_nil_r.
  - rewrite for_faulty_cons, reject_run_eq.
    destruct (full_reason (faults ir)) as [reason|e]; [| done]. cbn zeta.
    destruct (urlopen_put w gi k _); [done |].
    destruct (for_faulty w self gi (S k) rest _) as [[t2 s2] res] eqn:E.
    intros [= <- <- ->]. apply IH in E as (-> & -> & E3).
    cbn. rewrite <- app_assoc. repeat split; try done.
    unfold put_calls in *. cbn. by rewrite E3.
Qed.

Lemma for_faulty_calls w self gi irs : forall k s t s' res,
  for_faulty w self gi k irs s = (t, s', res) ->
  rule_calls t = [] /\ get_calls t = [] /\ abort_logs t = []
  /\ (put_id <$> put_calls t) `prefix_of` (inv_id <$> irs).
Proof.
  induction irs as [|ir rest IH]; intros k s t s' res.
  - by intros [= <- <- <-].
  - rewrite for_faulty_cons, reject_run_eq.
    destruct (full_reason (faults ir)) as [reason|e];
      [| intros [= <- <- <-]; repeat split; try done; apply prefix_nil].
    cbn zeta. destruct (urlopen_put w gi k _).
    + intros [= <- <- <-]. repeat split; try done. cbn.
      apply prefix_cons, prefix_nil.
    + destruct (for_faulty w self gi (S k) rest _) as [[t2 s2] r2] eqn:E.
      intros [= <- <- <-]. apply IH in E as (E1 & E2 & E3 & E4).
      unfold rule_calls, put_calls, get_calls, abort_logs in *. cbn.
      rewrite E1, E2, E3. repeat split; try done. by apply prefix_cons.
Qed.

Lemma found_faulty_fresh w ig ar gi g rs : forall j,
  Forall (fun x => (x ∉ ar) ∧ (x ∉ ig))
    (inv_id <$> found_faulty w ig ar gi g j rs).
Proof.
  induction rs as [|r rest IH]; intros j; cbn; [constructor |].
  rewrite fmap_app. apply Forall_app. split; [| apply IH].
  case_bool_decide; [| constructor].
  destruct (checked w gi j g r).2 as [[|f fs]|e]; repeat constructor; tauto.
Qed.

(** ** One game and the loop over the games *)

Lemma game_body_eq w self ig ar gi g s :
  game_body w self ig ar gi g s =
  match QUERY_TABLE !! q_counter self with
  | None => ([], s, Err KeyError)
  | Some ob =>
      let req := request_of w ob gi g in
      match urlopen_get w gi req with
      | Err e => ([EvGet gi req], s, Err e)
      | Ok rs =>
          match for_runs w ig ar gi g 0 rs s with
          | (t1, s1, Ok _) =>
              match for_faulty w self gi 0 (faulty_runs s1) s1 with
              | (t2, s2, res) => (EvGet gi req :: t1 ++ t2, s2, res)
              end
          | (t1, s1, Err e) => (EvGet gi req :: t1, s1, Err e)
          end
      end
  end.
Proof.
  unfold game_body, subscript. rewrite run_bind. unfold liftR at 1.
  destruct (QUERY_TABLE !! q_counter self) as [ob|]; [| done].
  fold (request_of w ob gi g). rewrite !run_bind. unfold emit, liftR.
  destruct (urlopen_get w gi _) as [rs|e]; [| done].
  rewrite !run_bind.
  destruct (for_runs w ig ar gi g 0 rs s) as [[t1 s1] [[]|e]]; [| done].
  rewrite run_bind. unfold gets.
  destruct (for_faulty w self gi 0 (faulty_runs s1) s1) as [[t2 s2] res].
  done.
Qed.

Lemma game_body_ok w self ig ar gi g s t s' :
  game_body w self ig ar gi g s = (t, s', Ok tt) ->
  faulty_runs s = [] ->
  exists ob rs,
    QUERY_TABLE !! q_counter self = Some ob
    /\ urlopen_get w gi (request_of w ob gi g) = Ok rs
    /\ get_calls t = [(gi, request_of w ob gi g)]
    /\ abort_logs t = []
    /\ rule_calls t = mjoin (five_rules <$> evaluated ig ar rs)
    /\ put_id <$> put_calls t = inv_id <$> found_faulty w ig ar gi g 0 rs
    /\ cache s' = cache s ++ seen_ids ar rs
    /\ rejected s'
       = rejected s ++ relisted ar rs
         ++ (inv_id <$> found_faulty w ig ar gi g 0 rs).
Proof.
  rewrite game_body_eq. intros H Hs.
  destruct (QUERY_TABLE !! q_counter self) as [ob|]; [| done].
  cbn zeta in H. destruct (urlopen_get w gi _) as [rs|e] eqn:Hget; [| done].
  destruct (for_runs w ig ar gi g 0 rs s) as [[t1 s1] [[]|e]] eqn:E1;
    [| done].
  destruct (for_faulty w self gi 0 (faulty_runs s1) s1)
    as [[t2 s2] res] eqn:E2.
  injection H as <- <- ->.
  pose proof (for_runs_calls _ _ _ _ _ _ _ _ _ _ _ E1) as (P1 & G1 & A1 & _).
  pose proof (for_faulty_calls _ _ _ _ _ _ _ _ _ E2) as (R2 & G2 & A2 & _).
  apply for_runs_ok in E1 as (C1 & J1 & F1 & R1).
  apply for_faulty_ok in E2 as (C2 & J2 & P2).
  rewrite Hs in F1. cbn in F1. rewrite F1 in *.
  exists ob, rs. split_calls.
  cbn [get_call abort_log rule_call put_call].
  rewrite G1, G2, A1, A2, R1, R2, P1, ?app_nil_l, P2, C2, C1, J2, J1.
  cbn. by rewrite ?app_nil_r, <- ?app_assoc.
Qed.

Lemma Forall_touched_app (P : string -> Prop) t1 t2 :
  Forall P (touched (t1 ++ t2))
  <-> Forall P (touched t1) /\ Forall P (touched t2).
Proof.
  unfold touched, rule_calls, put_calls.
  rewrite !omap_app, !fmap_app, !Forall_app. tauto.
Qed.

Lemma game_body_calls w self ig ar gi g s t s' res :
  game_body w self ig ar gi g s = (t, s', res) ->
  faulty_runs s = [] ->
  abort_logs t = []
  /\ Forall (fun x => (x ∉ ar) ∧ (x ∉ ig)) (touched t)
  /\ (forall ob, QUERY_TABLE !! q_counter self = Some ob ->
      get_calls t `prefix_of` [(gi, request_of w ob gi g)])
  /\ (QUERY_TABLE !! q_counter self = None -> get_calls t = []).
Proof.
  rewrite game_body_eq. intros H Hs.
  destruct (QUERY_TABLE !! q_counter self) as [ob|].
  2:{ injection H as <- <- <-. repeat split; try done. }
  cbn zeta in H. destruct (urlopen_get w gi _) as [rs|e] eqn:Hget.
  2:{ injection H as <- <- <-. repeat split; try done.
      by intros ? [= <-]. }
  destruct (for_runs w ig ar gi g 0 rs s) as [[t1 s1] r1] eqn:E1.
  pose proof (for_runs_calls _ _ _ _ _ _ _ _ _ _ _ E1) as (P1 & G1 & A1 & T1).
  assert (Forall (fun x => (x ∉ ar) ∧ (x ∉ ig)) (touched t1)) as T1'.
  { unfold touched. rewrite P1. cbn. by rewrite app_nil_r. }
  destruct r1 as [[]|e].
  - destruct (for_faulty w self gi 0 (faulty_runs s1) s1)
      as [[t2 s2] r2] eqn:E2.
    injection H as <- <- <-.
    pose proof (for_faulty_calls _ _ _ _ _ _ _ _ _ E2)
      as (R2 & G2 & A2 & [k P2]).
    apply for_runs_ok in E1 as (_ & _ & F1 & _).
    rewrite Hs in F1. cbn in F1.
    assert (Forall (fun x => (x ∉ ar) ∧ (x ∉ ig)) (touched t2)) as T2.
    { unfold touched. rewrite R2. cbn.
      pose proof (found_faulty_fresh w ig ar gi g rs 0) as F.
      rewrite <- F1, P2 in F. by apply Forall_app in F as [F _]. }
    repeat split.
    + unfold abort_logs in *. cbn. by rewrite omap_app, A1, A2.
    + change (EvGet gi (request_of w ob gi g) :: t1 ++ t2)
        with ([EvGet gi (request_of w ob gi g)] ++ t1 ++ t2).
      rewrite !Forall_touched_app. repeat split; done.
    + intros ? [= <-]. unfold get_calls in *. cbn.
      by rewrite omap_app, G1, G2.
    + done.
  - injection H as <- <- <-. repeat split.
    + done.
    + change (EvGet gi (request_of w ob gi g) :: t1)
        with ([EvGet gi (request_of w ob gi g)] ++ t1).
      rewrite !Forall_touched_app. repeat split; done.
    + intros ? [= <-]. unfold get_calls in *. cbn. by rewrite G1.
    + done.
Qed.

Lemma do_game_eq w self ig ar gi g s :
  do_game w self ig ar gi g s =
  match game_body w self ig ar gi g (clear_faulty s) with
  | (t, s1, Ok _) => (t, s1, Ok true)
  | (t, s1, Err e) =>
      match e with
      | HTTPError | ConnectionError =>
          (t ++ [EvLog (LogAbort e)], merge_previous ig ar s1, Ok false)
      | _ => (t, s1, Err e)
      end
  end.
Proof.
  unfold do_game. rewrite run_bind. unfold modify at 1, try_except.
  rewrite run_bind.
  destruct (game_body w self ig ar gi g (clear_faulty s))
    as [[t s1] [[]|e]]; cbn.
  - by rewrite app_nil_r.
  - by destruct e.
Qed.

Lemma for_games_cons w self ig ar gi g rest s :
  for_games w self ig ar gi (g :: rest) s =
  match do_game w self ig ar gi g s with
  | (t1, s1, Ok true) =>
      match for_games w self ig ar (S gi) rest s1 with
      | (t2, s2, res) => (t1 ++ t2, s2, res)
      end
  | (t1, s1, Ok false) => (t1, s1, Ok false)
  | (t1, s1, Err e) => (t1, s1, Err e)
  end.
Proof.
  cbn [for_games]. rewrite run_bind.
  destruct (do_game w self ig ar gi g s) as [[t1 s1] [[]|e]]; try done.
  cbn. by rewrite app_nil_r.
Qed.

Lemma found_faulty_listed w ig ar gi g rs : forall j x,
  x ∈ inv_id <$> found_faulty w ig ar gi g j rs -> x ∈ run_id <$> rs.
Proof.
  induction rs as [|r rest IH]; intros j x; cbn; [done |].
  rewrite fmap_app, elem_of_app, elem_of_cons. intros [H|H].
  - left. case_bool_decide; [| by apply elem_of_nil in H].
    destruct (checked w gi j g r).2 as [[|f fs]|e];
      try by apply elem_of_nil in H.
    cbn in H. by apply list_elem_of_singleton in H.
  - right. by eapply IH.
Qed.

Lemma relisted_listed ar rs x : x ∈ relisted ar rs -> x ∈ run_id <$> rs.
Proof. unfold relisted. rewrite list_elem_of_filter. tauto. Qed.

Lemma for_games_ok w self ig ar ob gs : forall gi s t s',
  QUERY_TABLE !! q_counter self = Some ob ->
  for_games w self ig ar gi gs s = (t, s', Ok true) ->
  get_calls t = requests w ob gi gs
  /\ abort_logs t = []
  /\ rule_calls t = mjoin (five_rules <$> evaluated ig ar (listed w ob gi gs))
  /\ cache s' = cache s ++ seen_ids ar (listed w ob gi gs)
  /\ exists R,
       rejected s' = rejected s ++ R
       /\ (forall x, x ∈ relisted ar (listed w ob gi gs) -> x ∈ R)
       /\ (forall x, x ∈ R -> x ∈ run_id <$> listed w ob gi gs).
Proof.
  intros gi s t s' Hob. revert gi s t s'.
  induction gs as [|g rest IH]; intros gi s t s'.
  - intros [= <- <-]. cbn. rewrite app_nil_r. repeat split.
    exists []. by rewrite app_nil_r.
  - rewrite for_games_cons, do_game_eq.
    destruct (game_body w self ig ar gi g (clear_faulty s))
      as [[tb sb] [[]|e]] eqn:Eb.
    2:{ by destruct e. }
    apply game_body_ok in Eb
      as (ob' & rs & Hob' & Hget & G1 & A1 & R1 & P1 & C1 & J1); [| done].
    assert (ob' = ob) as -> by congruence.
    destruct (for_games w self ig ar (S gi) rest sb) as [[t2 s2] r2] eqn:E2.
    intros [= <- <- ->].
    apply IH in E2 as (G2 & A2 & R2 & C2 & R & J2 & Jin & Jout).
    cbn [requests listed]. rewrite Hget.
    unfold rule_calls, get_calls, abort_logs, evaluated, seen_ids, relisted
      in *.
    rewrite !omap_app, G1, G2, A1, A2, R1, R2, C2, C1, J2, J1.
    rewrite !fmap_app, !filter_app, !fmap_app, join_app. cbn.
    rewrite <- !app_assoc. repeat split.
    eexists. split; [reflexivity |]. split.
    + intros x. rewrite !elem_of_app. intros [H|H]; [by left |].
      right. right. by apply Jin.
    + intros x. rewrite !elem_of_app. intros [H|[H|H]].
      * left. by apply relisted_listed in H.
      * left. by apply found_faulty_listed in H.
      * right. by apply Jout.
Qed.

Lemma for_games_calls w self ig ar gs : forall gi s t s' res,
  for_games w self ig ar gi gs s = (t, s', res) ->
  Forall (fun x => (x ∉ ar) ∧ (x ∉ ig)) (touched t)
  /\ (forall ob, QUERY_TABLE !! q_counter self = Some ob ->
      get_calls t `prefix_of` requests w ob gi gs)
  /\ (QUERY_TABLE !! q_counter self = None -> get_calls t = [])
  /\ (res = Ok false ->
      abort_logs t <> []
      /\ (forall x, x ∈ ig -> x ∈ cache s')
      /\ (forall x, x ∈ ar -> x ∈ rejected s'))
  /\ (res <> Ok false -> abort_logs t = []).
Proof.
  induction gs as [|g rest IH]; intros gi s t s' res.
  - intros [= <- <- <-]. repeat split; done.
  - rewrite for_games_cons, do_game_eq.
    destruct (game_body w self ig ar gi g (clear_faulty s))
      as [[tb sb] rb] eqn:Eb.
    pose proof (game_body_calls _ _ _ _ _ _ _ _ _ _ Eb eq_refl)
      as (A1 & T1 & G1 & N1).
    assert (forall e,
      abort_logs (tb ++ [EvLog (LogAbort e)]) <> []
      /\ Forall (fun x => (x ∉ ar) ∧ (x ∉ ig))
           (touched (tb ++ [EvLog (LogAbort e)]))
      /\ (forall ob, QUERY_TABLE !! q_counter self = Some ob ->
          get_calls (tb ++ [EvLog (LogAbort e)])
            `prefix_of` requests w ob gi (g :: rest))
      /\ (QUERY_TABLE !! q_counter self = None ->
          get_calls (tb ++ [EvLog (LogAbort e)]) = [])) as Habort.
    { intros e. unfold abort_logs, get_calls in *.
      rewrite !omap_app, A1. cbn. rewrite ?app_nil_r.
      rewrite !Forall_touched_app. repeat split; try done.
      intros ob Hob. etrans; [by apply G1 |]. cbn.
      apply prefix_cons, prefix_nil. }
    assert (forall ob, QUERY_TABLE !! q_counter self = Some ob ->
            get_calls tb `prefix_of` requests w ob gi (g :: rest)) as G1'.
    { intros ob Hob. etrans; [by apply G1 |]. cbn.
      apply prefix_cons, prefix_nil. }
    destruct rb as [[]|e].
    + destruct (for_games w self ig ar (S gi) rest sb)
        as [[t2 s2] r2] eqn:E2.
      intros [= <- <- <-]. apply IH in E2 as (T2 & G2 & N2 & F2 & K2).
      apply game_body_ok in Eb
        as (ob' & rs & Hob' & _ & G1e & _); [| done].
      unfold abort_logs, get_calls in *.
      rewrite !omap_app, A1, Forall_touched_app, !app_nil_l.
      split; [done |]. split; [| split; [| done]].
      * intros ob Hob. assert (ob' = ob) as -> by congruence.
        rewrite G1e. cbn. by apply prefix_cons, G2.
      * intros Hn. congruence.
    + specialize (Habort e) as (H1 & H2 & H3 & H4).
      destruct e; intros [= <- <- <-];
        (split; [done |]); (split; [done |]); (split; [done |]);
        (split; [| done]); try done; intros _; (split; [done |]);
        split; cbn; intros x Hx;
        apply elem_of_remove_dups, elem_of_app; by right.
Qed.

Lemma refresh_oauth_eq w s :
  refresh_oauth w s =
  match get_oauth w with
  | None => ([EvOAuth], s, Ok tt)
  | Some TwitchError => ([EvOAuth; EvLog LogOAuthError], s, Ok tt)
  | Some e => ([EvOAuth], s, Err e)
  end.
Proof.
  unfold refresh_oauth, try_except. rewrite run_bind. cbn.
  by destruct (get_oauth w) as [[]|].
Qed.

Lemma refresh_oauth_calls w s :
  (refresh_oauth w s).1.2 = s
  /\ touched (refresh_oauth w s).1.1 = []
  /\ get_calls (refresh_oauth w s).1.1 = []
  /\ abort_logs (refresh_oauth w s).1.1 = []
  /\ rule_calls (refresh_oauth w s).1.1 = [].
Proof. rewrite refresh_oauth_eq. by destruct (get_oauth w) as [[]|]. Qed.

Lemma main_eq w self ig ar loop :
  main w self ig ar loop =
  match refresh_oauth w fresh_locals with
  | (t0, s0, Ok _) =>
      match for_games w self ig ar 0 (GAMES self) s0 with
      | (t, s, Ok _) =>
          (t0 ++ t,
           Returned (advance self)
             (if loop then Some (cache s, rejected s) else None))
      | (t, _, Err e) => (t0 ++ t, Crashed e)
      end
  | (t0, _, Err e) => (t0, Crashed e)
  end.
Proof.
  unfold main. rewrite run_bind.
  destruct (refresh_oauth w fresh_locals) as [[t0 s0] [[]|e]]; [| done].
  by destruct (for_games w self ig ar 0 (GAMES self) s0) as [[t s] [b|e]].
Qed.

(** ** A whole cycle *)

Lemma listed_elem w ob gs : forall gi k g rs x,
  gs !! k = Some g ->
  urlopen_get w (gi + k) (request_of w ob (gi + k) g) = Ok rs ->
  x ∈ rs ->
  x ∈ listed w ob gi gs.
Proof.
  induction gs as [|g0 rest IH]; intros gi k g rs x; [done |].
  destruct k as [|k]; cbn [listed]; rewrite elem_of_app.
  - intros [= ->]. rewrite Nat.add_0_r. intros ->. by left.
  - cbn. intros Hk Hget Hx. right.
    apply (IH (S gi) k g rs x Hk); [| done].
    by rewrite <- Nat.add_succ_comm in Hget.
Qed.

Lemma main_touched w self ig ar loop :
  Forall (fun x => (x ∉ ar) ∧ (x ∉ ig)) (touched (main w self ig ar loop).1).
Proof.
  rewrite main_eq.
  pose proof (refresh_oauth_calls w fresh_locals) as (_ & T0 & _).
  destruct (refresh_oauth w fresh_locals) as [[t0 s0] [[]|e]];
    cbn [fst snd] in *; [| by rewrite T0].
  destruct (for_games w self ig ar 0 (GAMES self) s0)
    as [[t s] r] eqn:E.
  apply for_games_calls in E as (T & _).
  assert (Forall (fun x => (x ∉ ar) ∧ (x ∉ ig)) (touched (t0 ++ t))).
  { apply Forall_touched_app. split; [by rewrite T0 | done]. }
  by destruct r.
Qed.

(** The two ways a call of [main] that returns has gone: the loop over
    the games ran to its end, or it was left by [break]. *)
Lemma main_returned w self ig ar loop b' next :
  (main w self ig ar loop).2 = Returned b' next ->
  exists t0 t s go_on,
    (main w self ig ar loop).1 = t0 ++ t
    /\ touched t0 = [] /\ get_calls t0 = [] /\ abort_logs t0 = []
    /\ rule_calls t0 = []
    /\ for_games w self ig ar 0 (GAMES self) fresh_locals = (t, s, Ok go_on)
    /\ b' = advance self
    /\ next = if loop then Some (cache s, rejected s) else None.
Proof.
  rewrite main_eq.
  pose proof (refresh_oauth_calls w fresh_locals) as (S0 & T0 & G0 & A0 & R0).
  destruct (refresh_oauth w fresh_locals) as [[t0 s0] [[]|e]];
    cbn [fst snd] in *; [| done]. subst s0.
  destruct (for_games w self ig ar 0 (GAMES self) fresh_locals)
    as [[t s] [go_on|e]] eqn:E; [| done].
  cbn. intros [= <- <-]. by exists t0, t, s, go_on.
Qed.

(** C2.  An id of the previous [rejected] list is the subject of no rule
    predicate and of no reject call during the cycle; and when [main]
    returns and hands lists to the next call, every such id that the
    world lists for one of the games is in the [rejected] list handed
    over. *)
Theorem rejected_ids_are_skipped w self ig ar loop id :
  id ∈ ar ->
  (id ∉ touched (main w self ig ar loop).1)
  /\ forall b' c r gi g ob rs x,
       (main w self ig ar loop).2 = Returned b' (Some (c, r)) ->
       GAMES self !! gi = Some g ->
       QUERY_TABLE !! q_counter self = Some ob ->
       urlopen_get w gi (request_of w ob gi g) = Ok rs ->
       x ∈ rs -> run_id x = id ->
       id ∈ r.
Proof.
  intros Hid. split.
  - intros Hin. pose proof (main_touched w self ig ar loop) as F.
    rewrite Forall_forall in F. by destruct (F id Hin).
  - intros b' c r gi g ob rs x Hret Hg Hob Hget Hx Hrun.
    apply main_returned in Hret
      as (t0 & t & s & go_on & _ & _ & _ & _ & _ & E & _ & Hnext).
    destruct loop; [| done]. injection Hnext as -> ->.
    destruct go_on.
    + apply (for_games_ok _ _ _ _ ob) in E
        as (_ & _ & _ & _ & R & -> & Rin & _); [| done].
      cbn. apply Rin. unfold relisted. apply list_elem_of_filter.
      split; [done |]. rewrite <- Hrun. apply list_elem_of_fmap_2.
      by apply (listed_elem w ob (GAMES self) 0 gi g rs).
    + apply for_games_calls in E as (_ & _ & _ & F & _).
      destruct (F eq_refl) as (_ & _ & Har). by apply Har.
Qed.

Lemma rejected_ids_are_skipped_witness :
  ("b" ∉ touched
           (main (Demo.calm (fun _ => [Demo.with_rta "b"]))
              Demo.one_game [] ["b"] true).1)
  /\ "b" ∈ ["b"].
Proof.
  destruct (rejected_ids_are_skipped
              (Demo.calm (fun _ => [Demo.with_rta "b"]))
              Demo.one_game [] ["b"] true "b") as [H1 H2].
  - apply list_elem_of_here.
  - split; [exact H1 |].
    apply (H2 (advance Demo.one_game) [] ["b"] 0%nat Demo.celeste "game"
             [Demo.with_rta "b"] (Demo.with_rta "b")).
    + reflexivity.
    + reflexivity.
    + reflexivity.
    + reflexivity.
    + apply list_elem_of_here.
    + reflexivity.
Defined.











Lemma main_gets w self ig ar loop :
  (forall ob, QUERY_TABLE !! q_counter self = Some ob ->
   get_calls (main w self ig ar loop).1
     `prefix_of` requests w ob 0 (GAMES self))
  /\ (QUERY_TABLE !! q_counter self = None ->
      get_calls (main w self ig ar loop).1 = []).
Proof.
  rewrite main_eq.
  pose proof (refresh_oauth_calls w fresh_locals) as (_ & _ & G0 & _).
  destruct (refresh_oauth w fresh_locals) as [[t0 s0] [[]|e]];
    cbn [fst snd] in *.
  2:{ rewrite G0. split; [intros; apply prefix_nil | done]. }
  destruct (for_games w self ig ar 0 (GAMES self) s0)
    as [[t s] r] eqn:E.
  apply for_games_calls in E as (_ & G & N & _).
  assert (get_calls (t0 ++ t) = get_calls t) as Ht.
  { unfold get_calls in *. by rewrite omap_app, G0. }
  by destruct r; cbn [fst]; rewrite Ht.
Qed.



(** ** A cycle cut short *)




Lemma for_games_app w self ig ar pre post : forall gi s t1 s1,
  for_games w self ig ar gi pre s = (t1, s1, Ok true) ->
  for_games w self ig ar gi (pre ++ post) s =
  match for_games w self ig ar (gi + length pre) post s1 with
  | (t2, s2, res) => (t1 ++ t2, s2, res)
  end.
Proof.
  induction pre as [|g rest IH]; intros gi s t1 s1.
  - intros [= <- <-]. cbn [app length]. rewrite Nat.add_0_r.
    by destruct (for_games w self ig ar gi post s) as [[t2 s2] res].
  - cbn [app]. rewrite !for_games_cons.
    destruct (do_game w self ig ar gi g s) as [[t0 s0] [[]|e]]; try done.
    destruct (for_games w self ig ar (S gi) rest s0)
      as [[t2 s2] r2] eqn:E.
    intros [= <- <- ->]. rewrite (IH _ _ _ _ E).
    cbn [length]. rewrite <- Nat.add_succ_comm.
    destruct (for_games w self ig ar (S gi + length rest) post s2)
      as [[t3 s3] r3].
    by rewrite app_assoc.
Qed.



(** C5.  A connection failure that [urlopen] reports as [URLError] is
    caught by neither [except] clause of [main], although the second
    one names [ConnectionRefusedError].  When the processing of [g]
    raises it, after the games before [g] went through, [main] is left
    by the exception where it was raised: no abort is printed, the lists
    of the cycle and the previous lists are handed to no one,
    [q_counter] is not advanced, and the call the timer would have made
    does not take place. *)
Theorem url_error_leaves_main
    w self ig ar loop pre g post t1 s1 t2 s2 :
  GAMES self = pre ++ g :: post ->
  get_oauth w = None \/ get_oauth w = Some TwitchError ->
  for_games w self ig ar 0 pre fresh_locals = (t1, s1, Ok true) ->
  game_body w self ig ar (length pre) g (clear_faulty s1)
  = (t2, s2, Err URLError) ->
  main w self ig ar loop
  = ((refresh_oauth w fresh_locals).1.1 ++ t1 ++ t2, Crashed URLError)
  /\ abort_logs (main w self ig ar loop).1 = []
  /\ (forall ws self0 n,
        cycle_input ws self0 n = Some (self, ig, ar) ->
        ws n = w ->
        cycle_input ws self0 (S n) = None).
Proof.
  intros HG Hoauth Hpre Hbody.
  assert (for_games w self ig ar 0 (GAMES self) fresh_locals
          = (t1 ++ t2, s2, Err URLError)) as Hall.
  { rewrite HG, (for_games_app _ _ _ _ _ _ _ _ _ _ Hpre).
    change (0 + length pre)%nat with (length pre).
    by rewrite for_games_cons, do_game_eq, Hbody. }
  assert (forall b,
            main w self ig ar b
            = ((refresh_oauth w fresh_locals).1.1 ++ t1 ++ t2,
               Crashed URLError)) as Hmain.
  { intros b. rewrite main_eq, refresh_oauth_eq.
    destruct Hoauth as [-> | ->]; cbn [fst snd]; by rewrite Hall. }
  split; [apply Hmain |]. split.
  - rewrite Hmain. cbn [fst].
    apply for_games_calls in Hall as (_ & _ & _ & _ & A).
    pose proof (refresh_oauth_calls w fresh_locals) as (_ & _ & _ & A0 & _).
    unfold abort_logs in *. by rewrite omap_app, A0, A.
  - intros ws self0 n Hn Hw. cbn [cycle_input].
    by rewrite Hn, Hw, Hmain.
Qed.

Lemma url_error_leaves_main_witness :
  main (Demo.failing (fun _ => [Demo.with_rta "a"]) 1 URLError)
    Demo.two_games ["x"] ["y"] true
  = ((refresh_oauth (Demo.failing (fun _ => [Demo.with_rta "a"]) 1 URLError)
        fresh_locals).1.1
       ++ (for_games (Demo.failing (fun _ => [Demo.with_rta "a"]) 1 URLError)
             Demo.two_games ["x"] ["y"] 0 [Demo.celeste] fresh_locals).1.1
       ++ [EvGet 1 {| get_game := game_id Demo.celeste;
                      get_direction := "desc";
                      get_orderby := "game";
                      get_max := 100 |}],
     Crashed URLError).
Proof.
  edestruct (url_error_leaves_main
               (Demo.failing (fun _ => [Demo.with_rta "a"]) 1 URLError)
               Demo.two_games ["x"] ["y"] true
               [Demo.celeste] Demo.celeste []) as (H & _).
  - reflexivity.
  - by left.
  - vm_compute. reflexivity.
  - vm_compute. reflexivity.
  - rewrite H. reflexivity.
Defined.

(** ** The same id twice in one fetched list *)

Lemma five_rules_count rl id x :
  length (filter (fun c => c = (rl, id)) (five_rules x))
  = if decide (x = id) then 1%nat else 0%nat.
Proof.
  unfold five_rules. rewrite !filter_cons, filter_nil.
  destruct (decide (x = id)) as [-> | Hne].
  - destruct rl; repeat case_decide; simplify_eq; done.
  - repeat case_decide; simplify_eq; done.
Qed.

Lemma count_rule_calls (ig ar : list string) id rl (l : list string) :
  id ∉ ig -> id ∉ ar ->
  length (filter (fun c => c = (rl, id))
            (mjoin (five_rules <$> filter (fun x => (x ∉ ar) ∧ (x ∉ ig)) l)))
  = length (filter (fun y => y = id) l).
Proof.
  intros Hig Har. induction l as [|x l IH]; [done |].
  rewrite !filter_cons.
  destruct (decide (x = id)) as [-> | Hne].
  - rewrite decide_True by done. cbn [fmap list_fmap mjoin list_join].
    rewrite filter_app, length_app, five_rules_count, decide_True by done.
    cbn [length Nat.add]. f_equal. exact IH.
  - case_decide; [| done]. cbn [fmap list_fmap mjoin list_join].
    rewrite filter_app, length_app, five_rules_count, decide_False by done.
    done.
Qed.

Lemma count_found_faulty w ig ar gi g id rs :
  id ∉ ig -> id ∉ ar -> forall j,
  length (filter (fun y => y = id)
            (inv_id <$> found_faulty w ig ar gi g j rs))
  = faulty_occurrences w gi g id j rs.
Proof.
  intros Hig Har. induction rs as [|r rest IH]; intros j; [done |].
  cbn [found_faulty faulty_occurrences].
  rewrite fmap_app, filter_app, length_app, IH. f_equal.
  destruct (decide (run_id r = id)) as [E | Hne].
  - rewrite (bool_decide_eq_true_2 (run_id r = id)) by done.
    rewrite bool_decide_eq_true_2 by (by rewrite E).
    destruct (checked w gi j g r).2 as [[|f fs]|e]; try done.
    cbn. by rewrite decide_True.
  - rewrite (bool_decide_eq_false_2 (run_id r = id)) by done.
    case_bool_decide; [| done].
    destruct (checked w gi j g r).2 as [[|f fs]|e]; try done.
    cbn. by rewrite decide_False.
Qed.

(** C10.  When the iteration of one game ends without failure, an id that
    is in neither previous list has been the subject of each rule
    predicate once for each of its occurrences in the fetched list, and
    of one reject call for each occurrence whose checks found a fault. *)
Theorem duplicates_are_handled_one_by_one
    w self ig ar gi g s t s' id :
  do_game w self ig ar gi g s = (t, s', Ok true) ->
  id ∉ ig -> id ∉ ar ->
  exists ob rs,
    QUERY_TABLE !! q_counter self = Some ob
    /\ urlopen_get w gi (request_of w ob gi g) = Ok rs
    /\ (forall rl,
          length (filter (fun c => c = (rl, id)) (rule_calls t))
          = length (filter (fun y => y = id) (run_id <$> rs)))
    /\ length (filter (fun y => y = id) (put_id <$> put_calls t))
       = faulty_occurrences w gi g id 0 rs.
Proof.
  rewrite do_game_eq. intros H Hig Har.
  destruct (game_body w self ig ar gi g (clear_faulty s))
    as [[tb sb] [[]|e]] eqn:Eb; [| by destruct e].
  injection H as <- <-.
  apply game_body_ok in Eb
    as (ob & rs & Hob & Hget & _ & _ & R & P & _); [| done].
  exists ob, rs. split; [done |]. split; [done |]. split.
  - intros rl. rewrite R. by apply count_rule_calls.
  - rewrite P. by apply count_found_faulty.
Qed.

Lemma duplicates_are_handled_one_by_one_witness :
  let t :=
    (do_game (Demo.calm (fun _ => [Demo.with_rta "a"; Demo.with_rta "a"]))
       Demo.one_game [] [] 0 Demo.celeste fresh_locals).1.1 in
  length (filter (fun c => c = (RuleRealTime, "a")) (rule_calls t)) = 2%nat
  /\ length (filter (fun y => y = "a") (put_id <$> put_calls t)) = 2%nat.
Proof.
  edestruct (duplicates_are_handled_one_by_one
               (Demo.calm (fun _ => [Demo.with_rta "a"; Demo.with_rta "a"]))
               Demo.one_game [] [] 0%nat Demo.celeste fresh_locals)
    as (ob & rs & Hob & Hget & Hr & Hp).
  - vm_compute. reflexivity.
  - apply not_elem_of_nil.
  - apply not_elem_of_nil.
  - injection Hob as <-. injection Hget as <-.
    split; [exact (Hr RuleRealTime) | exact Hp].
Defined.

(** * Further properties *)

(** ** Strings *)

Lemma append_cons c (a b : string) : String c a +:+ b = String c (a +:+ b).
Proof. reflexivity. Qed.

Lemma append_nil (b : string) : "" +:+ b = b.
Proof. reflexivity. Qed.

Lemma prefix_append n b : String.prefix n (n +:+ b) = true.
Proof.
  induction n as [|c n IH]; [by destruct b |].
  rewrite append_cons. cbn [String.prefix].
  destruct (Ascii.ascii_dec c c); [done | congruence].
Qed.

Lemma prefix_split n h :
  String.prefix n h = true -> exists b, h = n +:+ b.
Proof.
  revert h. induction n as [|c n IH]; intros h; cbn [String.prefix].
  - intros _. by exists h.
  - destruct h as [|c' h]; cbn [String.prefix]; [done |].
    destruct (Ascii.ascii_dec c c') as [<- |]; [| done].
    intros H. destruct (IH h H) as [b ->]. by exists b.
Qed.

(** X16.  The test ['twitch.tv' in netloc] is a substring test: it holds for
    every string that has the needle somewhere inside, and only for
    those. *)
Theorem substring_in_spec needle hay :
  substring_in needle hay = true
  <-> exists a b, hay = a +:+ needle +:+ b.
Proof.
  split.
  - induction hay as [|c hay IH]; cbn [substring_in].
    + intros H. apply bool_decide_eq_true in H as ->. by exists "", "".
    + intros H. apply orb_true_iff in H as [H|H].
      * apply prefix_split in H as [b Hb]. exists "", b. by rewrite Hb.
      * destruct (IH H) as (a & b & ->). exists (String c a), b.
        by rewrite append_cons.
  - intros (a & b & ->). induction a as [|c a IH].
    + rewrite append_nil. destruct (needle +:+ b) as [|c rest] eqn:E.
      * destruct needle; [done | by rewrite append_cons in E].
      * cbn [substring_in]. by rewrite <- E, prefix_append.
    + rewrite append_cons. cbn [substring_in]. rewrite IH.
      apply orb_true_r.
Qed.

Lemma substring_in_spec_witness :
  substring_in "twitch.tv" "www.twitch.tv" = true.
Proof.
  apply (proj2 (substring_in_spec "twitch.tv" "www.twitch.tv")).
  by exists "www.", "".
Defined.

Lemma split_on_nonempty sep s : split_on sep s <> [].
Proof.
  destruct s as [|c s]; cbn; [done |].
  case_bool_decide; [done |]. by destruct (split_on sep s).
Qed.

(** X17.  [str.split] with a one-character separator loses nothing: joining
    the fields with the separator gives the string back, the number of
    fields is one more than the number of separators in the string, and
    no field contains the separator. *)
Theorem split_on_join sep s :
  String.concat (String sep "") (split_on sep s) = s
  /\ length (split_on sep s) = S (count_char sep s)
  /\ Forall (fun f => count_char sep f = 0%nat) (split_on sep s).
Proof.
  induction s as [|c s (IH1 & IH2 & IH3)]; [by repeat constructor |].
  cbn [split_on count_char].
  pose proof (split_on_nonempty sep s) as Hne.
  destruct (split_on sep s) as [|f fs]; [done |].
  case_bool_decide as Hc.
  - subst c. split; [| split].
    + change (String.concat (String sep "") ("" :: f :: fs))
        with ("" +:+ String sep "" +:+ String.concat (String sep "") (f :: fs)).
      by rewrite IH1.
    + rewrite ?bool_decide_eq_true_2 by done. cbn [length] in *. lia.
    + by constructor.
  - split; [| split].
    + destruct fs as [|f' fs].
      * cbn [String.concat] in *. by rewrite IH1.
      * change (String.concat (String sep "") (String c f :: f' :: fs))
          with (String c f +:+ String sep ""
                +:+ String.concat (String sep "") (f' :: fs)).
        rewrite append_cons. f_equal. exact IH1.
    + rewrite ?bool_decide_eq_false_2 by done. cbn [length] in *. lia.
    + apply Forall_cons in IH3 as [F1 F2]. constructor; [| done].
      cbn [count_char]. by rewrite bool_decide_eq_false_2.
Qed.

(** ** The checks of one run *)

Lemma check_run_unfold w gi j g r s :
  check_run w gi j g r s =
  match valid_default_version r (version g) with
  | Err e =>
      ([EvRule RuleRealTime (run_id r); EvRule RuleDefaultVersion (run_id r)],
       s, Err e)
  | Ok b2 =>
      match valid_in_game_time r with
      | Err e =>
          ([EvRule RuleRealTime (run_id r);
            EvRule RuleDefaultVersion (run_id r);
            EvRule RuleInGameTime (run_id r)], s, Err e)
      | Ok b3 =>
          match valid_existing_version r (version g) s with
          | (t4, _, Err e) =>
              ([EvRule RuleRealTime (run_id r);
                EvRule RuleDefaultVersion (run_id r);
                EvRule RuleInGameTime (run_id r);
                EvRule RuleExistingVersion (run_id r)] ++ t4, s, Err e)
          | (t4, _, Ok b4) =>
              match valid_persistent_vod w gi j r s with
              | (t5, _, res) =>
                  ([EvRule RuleRealTime (run_id r);
                    EvRule RuleDefaultVersion (run_id r);
                    EvRule RuleInGameTime (run_id r);
                    EvRule RuleExistingVersion (run_id r)] ++ t4
                   ++ EvRule RulePersistentVod (run_id r) :: t5,
                   s,
                   match res with
                   | Ok b5 =>
                       Ok (add_fault b5 ERROR_BAD_VOD
                             (add_fault b4 ERROR_INVALID_VERSION
                                (add_fault b3 ERROR_INVALID_IGT
                                   (add_fault b2 ERROR_NO_VERSION
                                      (add_fault (valid_real_time r)
                                         ERROR_SUBMITTED_RTA [])))))
                   | Err e => Err e
                   end)
              end
          end
      end
  end.
Proof.
  unfold check_run.
  destruct (valid_existing_version_stateless r (version g))
    as (t4 & r4 & H4).
  destruct (valid_persistent_vod_stateless w gi j r) as (t5 & r5 & H5).
  rewrite !run_bind. unfold liftR, emit.
  destruct (valid_default_version r (version g)) as [b2|e2]; [| done].
  rewrite !run_bind.
  destruct (valid_in_game_time r) as [b3|e3]; [| done].
  rewrite !run_bind, H4.
  destruct r4 as [b4|e4]; cbn [fst snd]; [| done].
  rewrite !run_bind, H5.
  destruct r5 as [b5|e5]; cbn -[add_fault]; by rewrite ?app_nil_r.
Qed.

Lemma elem_of_add_fault f ok g fs :
  f ∈ add_fault ok g fs <-> f ∈ fs \/ (ok = false /\ f = g).
Proof.
  destruct ok; cbn.
  - intuition congruence.
  - rewrite elem_of_app, list_elem_of_singleton. intuition congruence.
Qed.

Lemma add_fault_sublist ok g fs l :
  fs `sublist_of` l -> add_fault ok g fs `sublist_of` l ++ [g].
Proof.
  intros H. destruct ok; cbn.
  - by apply sublist_inserts_r.
  - by apply sublist_app.
Qed.

(** X1.  The list of faults of a run whose checks all return: the faults
    come in the order of the checks, none twice, and each is in the list
    exactly when its rule predicate returned [False]. *)
Theorem check_run_faults w gi j g r s t s' fs :
  check_run w gi j g r s = (t, s', Ok fs) ->
  fs `sublist_of` all_faults
  /\ (ERROR_SUBMITTED_RTA ∈ fs <-> valid_real_time r = false)
  /\ (ERROR_NO_VERSION ∈ fs
      <-> valid_default_version r (version g) = Ok false)
  /\ (ERROR_INVALID_IGT ∈ fs <-> valid_in_game_time r = Ok false)
  /\ (ERROR_INVALID_VERSION ∈ fs
      <-> (valid_existing_version r (version g) s).2 = Ok false)
  /\ (ERROR_BAD_VOD ∈ fs
      <-> (valid_persistent_vod w gi j r s).2 = Ok false).
Proof.
  rewrite check_run_unfold.
  destruct (valid_default_version r (version g)) as [b2|e2]; [| done].
  destruct (valid_in_game_time r) as [b3|e3]; [| done].
  destruct (valid_existing_version r (version g) s) as [[t4 s4] [b4|e4]];
    [| done].
  destruct (valid_persistent_vod w gi j r s) as [[t5 s5] [b5|e5]];
    [| done].
  intros [= _ _ <-]. split.
  - change all_faults
      with (((((([] ++ [ERROR_SUBMITTED_RTA]) ++ [ERROR_NO_VERSION])
                ++ [ERROR_INVALID_IGT]) ++ [ERROR_INVALID_VERSION])
              ++ [ERROR_BAD_VOD])).
    repeat apply add_fault_sublist. apply sublist_nil.
  - cbn [snd]. rewrite !elem_of_add_fault, !elem_of_nil.
    repeat split; intuition congruence.
Qed.

Lemma check_run_faults_witness :
  [ERROR_SUBMITTED_RTA] `sublist_of` all_faults
  /\ (ERROR_SUBMITTED_RTA ∈ [ERROR_SUBMITTED_RTA]
      <-> valid_real_time (Demo.with_rta "a") = false).
Proof.
  edestruct (check_run_faults (Demo.calm (fun _ => [])) 0 0 Demo.celeste
               (Demo.with_rta "a") fresh_locals) as (H1 & H2 & _).
  - reflexivity.
  - by split.
Defined.

(** ** The version and time rules *)

(** X2.  [valid_existing_version] never raises.  It returns [False] exactly
    when the run has a value for the version variable, the platform of
    the run has an entry in [invalid_ver] and the value is in that
    entry; when the platform has no entry it prints its message and
    returns [True]. *)
Theorem valid_existing_version_verdict r v s :
  (exists t b, valid_existing_version r v s = (t, s, Ok b))
  /\ ((valid_existing_version r v s).2 = Ok false
      <-> exists sel bad,
            values r !! variable_id v = Some sel
            /\ invalid_ver v !! platform r = Some bad
            /\ sel ∈ bad)
  /\ (invalid_ver v !! platform r = None ->
      valid_existing_version r v s
      = ([EvLog (LogPlatformError (platform r))], s, Ok true)).
Proof.
  unfold valid_existing_version, try_except, subscript.
  rewrite !run_bind. unfold liftR.
  destruct (values r !! variable_id v) as [sel|];
    [rewrite !run_bind;
     destruct (invalid_ver v !! platform r) as [bad|] |]; cbn.
  - split; [by do 2 eexists |]. split; [| done].
    case_bool_decide; cbn; split; try done.
    + intros _. by exists sel, bad.
    + intros (sel' & bad' & [= <-] & [= <-] & Hin). done.
  - split; [by do 2 eexists |]. split; [| done].
    split; [done |]. by intros (? & ? & _ & ? & _).
  - split; [by do 2 eexists |]. split; [| done].
    split; [done |]. by intros (? & ? & ? & _).
Qed.

Lemma valid_existing_version_verdict_witness :
  valid_existing_version
    {| run_id := "a"; realtime_t := PyInt 0; ingame_t := PyInt 0;
       values := {[ "ver" := "1.4" ]}; platform := "ps5";
       videos := VideosMissing |} Demo.ver fresh_locals
  = ([EvLog (LogPlatformError "ps5")], fresh_locals, Ok true).
Proof.
  apply valid_existing_version_verdict. reflexivity.
Defined.

(** X3.  For a time given as a whole number of seconds [valid_in_game_time]
    returns, and returns [True] exactly when the number of seconds is a
    multiple of 17.  On a NaN it raises [ValueError], on an infinity
    [OverflowError]. *)
Theorem valid_in_game_time_edges r :
  (forall z, ingame_t r = PyInt z ->
     exists b, valid_in_game_time r = Ok b /\ (b = true <-> (17 | z)))
  /\ (ingame_t r = PyFloat S754_nan ->
      valid_in_game_time r = Err ValueError)
  /\ (forall sg, ingame_t r = PyFloat (S754_infinity sg) ->
      valid_in_game_time r = Err OverflowError).
Proof.
  unfold valid_in_game_time, ingame_millis. split; [| split].
  - intros z ->. cbn. eexists. split; [reflexivity |].
    rewrite Z.eqb_eq, Z.mod_divide by done. split.
    + intros H. apply Z.gauss with 1000; [done |]. reflexivity.
    + intros H. by apply Z.divide_mul_r.
  - by intros ->.
  - by intros sg ->.
Qed.

Lemma valid_in_game_time_edges_witness :
  (exists b,
     valid_in_game_time
       {| run_id := "a"; realtime_t := PyInt 0; ingame_t := PyInt 34;
          values := ∅; platform := "pc"; videos := VideosMissing |} = Ok b
     /\ (b = true <-> (17 | 34)))
  /\ valid_in_game_time
       {| run_id := "a"; realtime_t := PyInt 0;
          ingame_t := PyFloat S754_nan;
          values := ∅; platform := "pc"; videos := VideosMissing |}
     = Err ValueError.
Proof.
  split.
  - apply (proj1 (valid_in_game_time_edges _) 34). reflexivity.
  - apply (proj1 (proj2 (valid_in_game_time_edges _))). reflexivity.
Defined.
(** ** The video rule *)

(** The loop over the links can only be left by the [ValueError] of
    [urlparse]. *)
Lemma find_twitch_error w ls e : find_twitch w ls = Err e -> e = ValueError.
Proof.
  induction ls as [|x ls IH]; cbn; [done |]. unfold parse_url.
  destruct (urlparse w (uri x)) as [par|]; [| congruence].
  by destruct (substring_in _ _).
Qed.

Lemma valid_persistent_vod_eq w gi j r s :
  valid_persistent_vod w gi j r s =
  match video_links r with
  | Err KeyError => ([], s, Ok false)
  | Err e => ([], s, Err e)
  | Ok ls =>
      match find_twitch w ls with
      | Err _ => ([], s, Err ValueError)
      | Ok None => ([], s, Ok true)
      | Ok (Some par) =>
          match split_on "/" (path par) !! 2%nat with
          | None => ([], s, Ok true)
          | Some seg =>
              match int_of_str w seg with
              | None => ([], s, Ok true)
              | Some vid =>
                  match get_videos w gi j vid with
                  | Ok [] => ([EvLookup vid], s, Ok true)
                  | Ok (v :: _) =>
                      ([EvLookup vid], s,
                       Ok (negb (bool_decide (vtype v = "archive"))))
                  | Err KeyError => ([EvLookup vid], s, Ok false)
                  | Err TwitchError =>
                      ([EvLookup vid; EvLog LogTwitchError], s, Ok true)
                  | Err IndexError | Err ValueError =>
                      ([EvLookup vid], s, Ok true)
                  | Err e => ([EvLookup vid], s, Err e)
                  end
              end
          end
      end
  end.
Proof.
  unfold valid_persistent_vod, try_except at 1. rewrite run_bind.
  unfold liftR at 1. unfold video_links.
  destruct (videos r) as [| |ls]; try done.
  rewrite run_bind. unfold liftR at 1.
  destruct (find_twitch w ls) as [[par|]|e] eqn:Hf; [| done |].
  2:{ by rewrite (find_twitch_error _ _ _ Hf). }
  unfold try_except, index, parse_int. rewrite !run_bind. unfold liftR at 1.
  destruct (split_on "/" (path par) !! 2%nat) as [seg|]; [| done].
  rewrite !run_bind. unfold liftR at 1.
  destruct (int_of_str w seg) as [vid|]; [| done].
  rewrite !run_bind. unfold emit. rewrite !run_bind. unfold liftR.
  destruct (get_videos w gi j vid) as [[|v vs]|[]]; done.
Qed.

Lemma find_twitch_first w l1 x l2 par :
  Forall (fun y => is_twitch w y = Some false) l1 ->
  urlparse w (uri x) = Some par ->
  substring_in "twitch.tv" (netloc par) = true ->
  find_twitch w (l1 ++ x :: l2) = Ok (Some par).
Proof.
  unfold is_twitch. intros H Hx Hin.
  induction H as [|y l1 Hy _ IH]; cbn; unfold parse_url.
  - by rewrite Hx, Hin.
  - destruct (urlparse w (uri y)) as [py|]; [| done].
    cbn in Hy. injection Hy as ->. exact IH.
Qed.

Lemma find_twitch_none w ls :
  find_twitch w ls = Ok None
  <-> Forall (fun y => is_twitch w y = Some false) ls.
Proof.
  unfold is_twitch. induction ls as [|y ls IH]; cbn; [done |].
  rewrite Forall_cons. unfold parse_url.
  destruct (urlparse w (uri y)) as [py|]; cbn.
  - destruct (substring_in _ _); [| by rewrite IH; intuition].
    split; [done | by intros [? _]].
  - split; [done | by intros [? _]].
Qed.

(** The loop raises exactly when a link that [urlparse] refuses comes
    before every Twitch link. *)
Lemma find_twitch_raises w ls :
  (exists e, find_twitch w ls = Err e)
  <-> exists l1 x l2,
        ls = l1 ++ x :: l2
        /\ Forall (fun y => is_twitch w y = Some false) l1
        /\ urlparse w (uri x) = None.
Proof.
  unfold is_twitch. induction ls as [|y ls IH].
  - split; [by intros [e H] |]. intros (l1 & x & l2 & H & _).
    by destruct l1.
  - cbn [find_twitch]. unfold parse_url.
    destruct (urlparse w (uri y)) as [py|] eqn:Hy.
    + destruct (substring_in "twitch.tv" (netloc py)) eqn:Hin.
      * split; [by intros [e H] |].
        intros (l1 & x & l2 & H & Hl1 & Hx).
        destruct l1 as [|y' l1]; injection H as <- ->; [congruence |].
        apply Forall_cons in Hl1 as [Hy' _].
        rewrite Hy in Hy'. cbn in Hy'. congruence.
      * rewrite IH. split.
        -- intros (l1 & x & l2 & -> & Hl1 & Hx).
           exists (y :: l1), x, l2. split; [done |]. split; [| done].
           constructor; [| done]. by rewrite Hy; cbn; rewrite Hin.
        -- intros (l1 & x & l2 & H & Hl1 & Hx).
           destruct l1 as [|y' l1]; injection H as <- ->; [congruence |].
           apply Forall_cons in Hl1 as [_ Hl1].
           by exists l1, x, l2.
    + split; [| by eexists]. intros _. by exists [], y, ls.
Qed.

(** X4.  Only the first link on a Twitch host counts: the links before it and
    the links after it do not change what [valid_persistent_vod] does,
    when the links before it parse.  A list of links all of which parse
    and none of which is on a Twitch host (its host does not contain
    ["twitch.tv"]) is accepted without any lookup. *)
Theorem first_twitch_link_decides w gi j r s :
  (forall l1 x l2,
     Forall (fun y => is_twitch w y = Some false) l1 ->
     is_twitch w x = Some true ->
     valid_persistent_vod w gi j (with_links r (l1 ++ x :: l2)) s
     = valid_persistent_vod w gi j (with_links r [x]) s)
  /\ (forall ls,
        Forall (fun y =>
                  exists par,
                    urlparse w (uri y) = Some par
                    /\ ~ exists a b,
                           netloc par = a +:+ "twitch.tv" +:+ b)
          ls ->
        valid_persistent_vod w gi j (with_links r ls) s = ([], s, Ok true)).
Proof.
  split.
  - intros l1 x l2 H1 Hx. rewrite !valid_persistent_vod_eq. cbn.
    unfold is_twitch in Hx.
    destruct (urlparse w (uri x)) as [par|] eqn:Hp; [| done].
    cbn in Hx. injection Hx as Hin.
    rewrite (find_twitch_first w l1 x l2 par H1 Hp Hin).
    unfold parse_url. by rewrite Hp, Hin.
  - intros ls H. rewrite valid_persistent_vod_eq. cbn.
    assert (find_twitch w ls = Ok None) as ->; [| done].
    apply find_twitch_none. eapply Forall_impl; [exact H |].
    intros y (par & Hp & Hy). unfold is_twitch. rewrite Hp. cbn.
    destruct (substring_in _ _) eqn:E; [| done].
    by apply substring_in_spec in E.
Qed.

Lemma first_twitch_link_decides_witness :
  let w := Demo.calm (fun _ => []) in
  let yt := {| uri := "youtu.be" |} in
  let tw := {| uri := "www.twitch.tv" |} in
  valid_persistent_vod w 0 0 (with_links (Demo.clean "a") [yt; tw; yt])
    fresh_locals
  = valid_persistent_vod w 0 0 (with_links (Demo.clean "a") [tw])
      fresh_locals.
Proof.
  apply (proj1 (first_twitch_link_decides (Demo.calm (fun _ => [])) 0 0
                  (Demo.clean "a") fresh_locals)
           [ {| uri := "youtu.be" |} ] {| uri := "www.twitch.tv" |}
           [ {| uri := "youtu.be" |} ]).
  - by repeat constructor.
  - reflexivity.
Defined.

(** X5.  When [valid_persistent_vod] returns [False]: exactly when
    ["videos"] or ["links"] is missing, or the first Twitch link has a
    third path segment that reads as a number and the lookup of that
    video either yields a first entry of type ["archive"] or raises
    [KeyError]. *)
Theorem valid_persistent_vod_false w gi j r s :
  (valid_persistent_vod w gi j r s).2 = Ok false
  <-> videos r = VideosMissing
      \/ exists ls par seg vid,
           videos r = VideosLinks ls
           /\ find_twitch w ls = Ok (Some par)
           /\ split_on "/" (path par) !! 2%nat = Some seg
           /\ int_of_str w seg = Some vid
           /\ (get_videos w gi j vid = Err KeyError
               \/ exists v vs,
                    get_videos w gi j vid = Ok (v :: vs)
                    /\ vtype v = "archive").
Proof.
  rewrite valid_persistent_vod_eq. unfold video_links.
  destruct (videos r) as [| |ls] eqn:Hv; cbn [snd].
  - split; [by left | done].
  - split; [done | intros [H | (? & ? & ? & ? & H & _)]; done].
  - destruct (find_twitch w ls) as [[par|]|e0] eqn:Hf; cbn [snd].
    2,3:(split; [done |];
         intros [H | (? & ? & ? & ? & [= <-] & H & _)];
           [done | congruence]).
    destruct (split_on "/" (path par) !! 2%nat) as [seg|] eqn:Hs;
      cbn [snd].
    2:{ split; [done |].
        intros [H | (? & ? & ? & ? & [= <-] & H1 & H2 & _)];
          [done | congruence]. }
    destruct (int_of_str w seg) as [vid|] eqn:Hi; cbn [snd].
    2:{ split; [done |].
        intros [H | (? & ? & ? & ? & [= <-] & H1 & H2 & H3 & _)];
          [done | congruence]. }
    assert (forall P : Z -> Prop,
      (VideosLinks ls = VideosMissing
       \/ exists ls' par' seg' vid',
            VideosLinks ls = VideosLinks ls'
            /\ find_twitch w ls' = Ok (Some par')
            /\ split_on "/" (path par') !! 2%nat = Some seg'
            /\ int_of_str w seg' = Some vid' /\ P vid')
      <-> P vid) as Hiff.
    { intros P. split.
      - intros [H | (ls' & par' & seg' & vid' & [= <-] & H1 & H2 & H3 & H4)];
          [congruence |].
        congruence.
      - intros H. right. by exists ls, par, seg, vid. }
    rewrite (Hiff (fun vid' =>
               get_videos w gi j vid' = Err KeyError
               \/ exists v vs, get_videos w gi j vid' = Ok (v :: vs)
                               /\ vtype v = "archive")).
    destruct (get_videos w gi j vid) as [[|v vs]|[]]; cbn [snd];
      try (split; [done | by intros [H | (? & ? & H & _)]]).
    + case_bool_decide as Ha; cbn.
      * split; [intros _; right; by exists v, vs | done].
      * split; [done |]. intros [H | (v' & vs' & [= <- <-] & H)]; done.
    + split; [by left | done].
Qed.

(** X6.  [valid_persistent_vod] looks up at most one video, and none when
    there is no Twitch link.  The exceptions it lets out are never
    [KeyError], [IndexError] or a Twitch exception.  They are the
    [TypeError] of a [null] ["videos"], the [ValueError] of [urlparse] on
    a link that comes before every Twitch link (the loop is outside the
    inner [try], whose [except ValueError] so covers [int] and the lookup
    only), or another exception of the lookup.  Such a link does make
    the predicate raise, before any lookup. *)
Theorem valid_persistent_vod_escapes w gi j r s :
  (length (lookup_calls (valid_persistent_vod w gi j r s).1.1) <= 1)%nat
  /\ (lookup_calls (valid_persistent_vod w gi j r s).1.1 <> [] ->
      exists ls par, videos r = VideosLinks ls
                     /\ find_twitch w ls = Ok (Some par))
  /\ (forall e, (valid_persistent_vod w gi j r s).2 = Err e ->
      ~ (e ∈ [KeyError; IndexError; TwitchError])
      /\ ((e = TypeError /\ videos r = VideosNull)
          \/ (e = ValueError
              /\ (valid_persistent_vod w gi j r s).1.1 = []
              /\ exists l1 x l2,
                   videos r = VideosLinks (l1 ++ x :: l2)
                   /\ Forall (fun y => is_twitch w y = Some false) l1
                   /\ urlparse w (uri x) = None)
          \/ (e <> ValueError
              /\ exists vid, get_videos w gi j vid = Err e)))
  /\ (forall l1 x l2,
        videos r = VideosLinks (l1 ++ x :: l2) ->
        Forall (fun y => is_twitch w y = Some false) l1 ->
        urlparse w (uri x) = None ->
        valid_persistent_vod w gi j r s = ([], s, Err ValueError)).
Proof.
  rewrite valid_persistent_vod_eq. unfold video_links.
  destruct (videos r) as [| |ls] eqn:Hv; cbn [fst snd].
  - split; [cbn; lia |]. split; [done |]. split; done.
  - split; [cbn; lia |]. split; [done |]. split; [| done].
    intros e [= <-].
    split; [| by left]. rewrite !elem_of_cons, elem_of_nil.
    intuition congruence.
  - assert (forall l1 x l2,
              VideosLinks ls = VideosLinks (l1 ++ x :: l2) ->
              Forall (fun y => is_twitch w y = Some false) l1 ->
              urlparse w (uri x) = None ->
              exists e, find_twitch w ls = Err e) as Hraise.
    { intros l1 x l2 [= ->] H1 Hx. apply find_twitch_raises.
      by exists l1, x, l2. }
    destruct (find_twitch w ls) as [[par|]|e0] eqn:Hf; cbn [fst snd].
    3:{ split; [cbn; lia |]. split; [done |]. split; [| done].
        intros e [= <-].
        split; [rewrite !elem_of_cons, elem_of_nil; intuition congruence |].
        right; left. split; [done |]. split; [done |].
        destruct (proj1 (find_twitch_raises w ls)) as (l1 & x & l2 & -> & H);
          [by eexists |].
        by exists l1, x, l2. }
    2:{ split; [cbn; lia |]. split; [done |]. split; [done |].
        intros l1 x l2 H H1 Hx.
        by destruct (Hraise l1 x l2 H H1 Hx). }
    assert (exists ls' par', VideosLinks ls = VideosLinks ls'
                             /\ find_twitch w ls' = Ok (Some par')) as Hex
      by (by exists ls, par).
    assert (forall (res : list event * locals * result bool) l1 x l2,
              VideosLinks ls = VideosLinks (l1 ++ x :: l2) ->
              Forall (fun y => is_twitch w y = Some false) l1 ->
              urlparse w (uri x) = None ->
              res = ([], s, Err ValueError)) as Hno.
    { intros res l1 x l2 H H1 Hx.
      by destruct (Hraise l1 x l2 H H1 Hx). }
    destruct (split_on "/" (path par) !! 2%nat) as [seg|]; cbn [fst snd];
      [| split; [cbn; lia |]; split; [done |]; split; [done | apply Hno]].
    destruct (int_of_str w seg) as [vid|]; cbn [fst snd];
      [| split; [cbn; lia |]; split; [done |]; split; [done | apply Hno]].
    destruct (get_videos w gi j vid) as [[|v vs]|e0] eqn:Hg; cbn [fst snd].
    + split; [cbn; lia |]. split; [by intros _ |].
      split; [done | apply Hno].
    + split; [cbn; lia |]. split; [by intros _ |].
      split; [done | apply Hno].
    + destruct e0; cbn [fst snd]; (split; [cbn; lia |]);
        (split; [by intros _ |]); (split; [| apply Hno]);
        try done; intros e [= <-];
        (split; [rewrite !elem_of_cons, elem_of_nil; intuition congruence
                | right; right; split; [done | by exists vid]]).
Qed.

Lemma valid_persistent_vod_escapes_witness :
  valid_persistent_vod (refusing_brackets (fun _ => [])) 0 0
    (with_links (Demo.clean "a")
       [ {| uri := "youtu.be" |};
         {| uri := "https://[twitch.tv/videos/123456" |} ])
    fresh_locals
  = ([], fresh_locals, Err ValueError).
Proof.
  apply (proj2 (proj2 (proj2 (valid_persistent_vod_escapes
                                (refusing_brackets (fun _ => [])) 0 0
                                (with_links (Demo.clean "a")
                                   [ {| uri := "youtu.be" |};
                                     {| uri := "https://[twitch.tv/videos/123456" |} ])
                                fresh_locals)))
           [ {| uri := "youtu.be" |} ]
           {| uri := "https://[twitch.tv/videos/123456" |} []).
  - reflexivity.
  - by repeat constructor.
  - reflexivity.
Defined.

(** ** What a cycle keeps *)

Lemma cycle_inv_refl w self ig ar s : cycle_inv w self ig ar s [] s.
Proof. repeat split; by auto. Qed.

Lemma cycle_inv_app w self ig ar s t1 s1 t2 s2 :
  cycle_inv w self ig ar s t1 s1 ->
  cycle_inv w self ig ar s1 t2 s2 ->
  cycle_inv w self ig ar s (t1 ++ t2) s2.
Proof.
  intros (P1 & T1 & C1 & R1 & Q1 & L1 & M1) (P2 & T2 & C2 & R2 & Q2 & L2 & M2).
  unfold cycle_inv, put_calls, rejected_logs in *.
  rewrite !omap_app, fmap_app. repeat split.
  - by apply Forall_app.
  - apply Forall_touched_app. split; [| done].
    eapply Forall_impl; [exact T1 | auto].
  - auto.
  - auto.
  - intros x Hx. rewrite elem_of_app.
    destruct (Q2 x Hx) as [H | [H | H]]; [| tauto | tauto].
    destruct (Q1 x H) as [H' | [H' | H']]; tauto.
  - apply Forall_app. split; [| done].
    eapply Forall_impl; [exact L1 | auto].
  - apply Forall_app. split.
    + eapply Forall_impl; [exact M1 |]. intros x Hx.
      apply elem_of_app. by left.
    + eapply Forall_impl; [exact M2 |]. intros x Hx.
      apply elem_of_app. by right.
Qed.

Lemma checked_rule_ids w gi j g r :
  Forall (fun x => x = run_id r) (rule_calls (checked w gi j g r).1).*2.
Proof.
  destruct (checked_calls w gi j g r) as (_ & _ & _ & [k Hk] & _).
  assert (Forall (fun x => x = run_id r) (five_rules (run_id r)).*2) as F
    by (by repeat constructor).
  rewrite Hk, fmap_app in F. by apply Forall_app in F as [F _].
Qed.

Lemma emits_impl {A} (E E' : event -> Prop) (m : M A) :
  emits E m -> (forall ev, E ev -> E' ev) -> emits E' m.
Proof. intros H HE s. eapply Forall_impl; [apply H | done]. Qed.

Lemma checked_rejected_logs w gi j g r :
  rejected_logs (checked w gi j g r).1 = [].
Proof.
  assert (emits (fun ev => rejected_log ev = None) (check_run w gi j g r))
    as H.
  { assert (forall ev, internal ev -> rejected_log ev = None) as Hint
      by (by intros [| | | | |[]]).
    unfold check_run.
    repeat (apply emits_bind;
            [first [apply emits_liftR | by apply emits_emit
                   | apply (emits_impl internal);
                     [first [apply valid_existing_version_internal
                            | apply valid_persistent_vod_internal]
                     | exact Hint]]
            | intros ?]).
    apply emits_ret. }
  specialize (H fresh_locals). unfold checked.
  destruct (check_run w gi j g r fresh_locals) as [[t s] res].
  cbn [fst] in *. unfold rejected_logs.
  induction H as [|ev t Hev _ IH]; [done |]. cbn. by rewrite Hev.
Qed.

Lemma visit_run_inv w self ig ar gi g j r s t s' res :
  visit_run w ig ar gi g j r s = (t, s', res) ->
  cycle_inv w self ig ar s t s'.
Proof.
  rewrite visit_run_eq.
  pose proof (checked_calls w gi j g r) as (P & _).
  pose proof (checked_rule_ids w gi j g r) as Hids.
  pose proof (checked_rejected_logs w gi j g r) as Hlog.
  repeat case_bool_decide.
  - intros [= <- <- <-]. unfold cycle_inv. cbn.
    repeat split; try done; try (intros x Hx; set_unfold; tauto).
    intros x Hx. apply elem_of_app in Hx as [Hx | Hx]; [by left |].
    apply list_elem_of_singleton in Hx as ->. right. by left.
  - intros [= <- <- <-]. unfold cycle_inv. cbn.
    repeat split; try done; try (intros x Hx; set_unfold; tauto).
  - assert (cycle_inv w self ig ar s (checked w gi j g r).1
              (push_cache (run_id r) s)) as Hpush.
    { unfold cycle_inv, touched. rewrite P, Hlog. cbn.
      rewrite app_nil_r. repeat split; try done.
      - eapply Forall_impl; [exact Hids |]. intros x ->.
        apply elem_of_app. right. apply list_elem_of_here.
      - intros x Hx. apply elem_of_app. by left.
      - intros x Hx. by left. }
    destruct (checked w gi j g r) as [tc [fs|e]]; cbn [fst snd] in *.
    + intros [= <- <- <-]. by destruct (0 <? length fs)%nat.
    + by intros [= <- <- <-].
Qed.

Lemma for_runs_inv w self ig ar gi g rs : forall j s t s' res,
  for_runs w ig ar gi g j rs s = (t, s', res) ->
  cycle_inv w self ig ar s t s'.
Proof.
  induction rs as [|r rest IH]; intros j s t s' res.
  - intros [= <- <- <-]. apply cycle_inv_refl.
  - rewrite for_runs_cons.
    destruct (visit_run w ig ar gi g j r s) as [[t1 s1] r1] eqn:E1.
    apply (visit_run_inv w self) in E1.
    destruct r1 as [[]|e]; [| by intros [= <- <- <-]].
    destruct (for_runs w ig ar gi g (S j) rest s1) as [[t2 s2] r2] eqn:E2.
    intros [= <- <- <-]. apply IH in E2. by eapply cycle_inv_app.
Qed.

Lemma for_faulty_inv w self ig ar gi irs : forall k s t s' res,
  for_faulty w self gi k irs s = (t, s', res) ->
  Forall (fun ir => forall reason,
            full_reason (faults ir) = Ok reason ->
            justified w self ig ar (put_of self ir reason)) irs ->
  Forall (fun ir => inv_id ir ∈ cache s) irs ->
  cycle_inv w self ig ar s t s'.
Proof.
  induction irs as [|ir rest IH]; intros k s t s' res.
  - intros [= <- <- <-] _ _. apply cycle_inv_refl.
  - rewrite for_faulty_cons, reject_run_eq.
    intros H HJ HC.
    apply Forall_cons in HJ as [Hj HJ].
    apply Forall_cons in HC as [Hc HC].
    destruct (full_reason (faults ir)) as [reason|e] eqn:Hreason.
    2:{ injection H as <- <- <-. apply cycle_inv_refl. }
    cbn zeta in H. specialize (Hj reason eq_refl).
    fold (put_of self ir reason) in H.
    destruct (urlopen_put w gi k _).
    + injection H as <- <- <-. unfold cycle_inv, touched. cbn.
      split; [by constructor |]. split; [by constructor |].
      repeat split; try done. intros x Hx. by left.
    + destruct (for_faulty w self gi (S k) rest _) as [[t2 s2] r2] eqn:E.
      injection H as <- <- <-.
      apply IH in E; [| done | done].
      apply (cycle_inv_app w self ig ar s [_; _; _]
               (push_rejected (inv_id ir) s) t2 s2); [| exact E].
      unfold cycle_inv, touched. cbn.
      split; [by constructor |]. split; [by constructor |].
      split; [done |]. split; [intros x Hx; apply elem_of_app; by left |].
      split; [| split].
      * intros x Hx. apply elem_of_app in Hx as [Hx | Hx]; [by left |].
        right. by right.
      * constructor; [| done]. apply elem_of_app. right.
        apply list_elem_of_here.
      * constructor; [| done]. apply list_elem_of_here.
Qed.

Lemma found_faulty_entries w ig ar gi g rs : forall j,
  Forall (fun ir =>
            (inv_id ir ∉ ig) /\ (inv_id ir ∉ ar)
            /\ exists k r f fs,
                 rs !! k = Some r
                 /\ run_id r = inv_id ir
                 /\ (checked w gi (j + k) g r).2 = Ok (f :: fs)
                 /\ faults ir = f :: fs)
    (found_faulty w ig ar gi g j rs).
Proof.
  induction rs as [|r rest IH]; intros j; cbn [found_faulty]; [done |].
  apply Forall_app. split.
  - case_bool_decide as Hf; [| done].
    destruct (checked w gi j g r).2 as [[|f fs]|e] eqn:E; try done.
    constructor; [| done]. destruct Hf as [Har Hig].
    repeat split; try done. exists 0%nat, r, f, fs.
    by rewrite Nat.add_0_r.
  - eapply Forall_impl; [apply (IH (S j)) |].
    intros ir (Hig & Har & k & r' & f & fs & Hk & Hid & Hck & Hfs).
    repeat split; try done. exists (S k), r', f, fs.
    by rewrite <- Nat.add_succ_comm.
Qed.

Lemma found_faulty_seen w ig ar gi g rs : forall j x,
  x ∈ inv_id <$> found_faulty w ig ar gi g j rs -> x ∈ seen_ids ar rs.
Proof.
  intros j x Hx. unfold seen_ids. apply list_elem_of_filter. split.
  - pose proof (found_faulty_fresh w ig ar gi g rs j) as F.
    rewrite Forall_forall in F. by destruct (F x Hx).
  - by eapply found_faulty_listed.
Qed.

Lemma game_body_inv w self ig ar gi g s t s' res :
  game_body w self ig ar gi g s = (t, s', res) ->
  faulty_runs s = [] ->
  GAMES self !! gi = Some g ->
  cycle_inv w self ig ar s t s'.
Proof.
  rewrite game_body_eq. intros H Hs Hg.
  destruct (QUERY_TABLE !! q_counter self) as [ob|] eqn:Hob.
  2:{ injection H as <- <- <-. apply cycle_inv_refl. }
  cbn zeta in H.
  assert (forall t1 s1, cycle_inv w self ig ar s t1 s1 ->
          cycle_inv w self ig ar s
            (EvGet gi (request_of w ob gi g) :: t1) s1) as Hget.
  { intros t1 s1 H1.
    apply (cycle_inv_app _ _ _ _ s [EvGet gi (request_of w ob gi g)] s);
      [| done].
    apply cycle_inv_refl. }
  destruct (urlopen_get w gi _) as [rs|e] eqn:Hfetch.
  2:{ injection H as <- <- <-. apply Hget, cycle_inv_refl. }
  destruct (for_runs w ig ar gi g 0 rs s) as [[t1 s1] r1] eqn:E1.
  pose proof (for_runs_inv w self _ _ _ _ _ _ _ _ _ _ E1) as I1.
  destruct r1 as [[]|e].
  2:{ injection H as <- <- <-. by apply Hget. }
  destruct (for_faulty w self gi 0 (faulty_runs s1) s1)
    as [[t2 s2] r2] eqn:E2.
  injection H as <- <- <-. apply Hget.
  apply for_runs_ok in E1 as (C1 & _ & F1 & _).
  rewrite Hs in F1. cbn in F1.
  eapply cycle_inv_app; [exact I1 |].
  eapply for_faulty_inv; [exact E2 | |].
  - rewrite F1.
    eapply Forall_impl; [apply (found_faulty_entries w ig ar gi g rs 0) |].
    intros ir (Hig & Har & k & r & f & fs & Hk & Hid & Hck & Hfs).
    intros reason Hreason. repeat split; try done.
    exists gi, g, ob, rs, k, r, f, fs. repeat split; try done.
    cbn. by rewrite <- Hfs.
  - rewrite F1, C1. apply Forall_forall. intros ir Hir.
    apply elem_of_app. right.
    apply (found_faulty_seen w ig ar gi g rs 0).
    by apply list_elem_of_fmap_2.
Qed.

Lemma do_game_inv w self ig ar gi g s t s' res :
  do_game w self ig ar gi g s = (t, s', res) ->
  GAMES self !! gi = Some g ->
  cycle_inv w self ig ar s t s'.
Proof.
  rewrite do_game_eq. intros H Hg.
  destruct (game_body w self ig ar gi g (clear_faulty s))
    as [[tb sb] rb] eqn:Eb.
  apply game_body_inv in Eb; [| done | done].
  assert (cycle_inv w self ig ar s tb sb) as I by exact Eb.
  assert (forall e,
            cycle_inv w self ig ar s (tb ++ [EvLog (LogAbort e)])
              (merge_previous ig ar sb)) as Hab.
  { intros e. eapply cycle_inv_app; [exact I |].
    unfold cycle_inv, touched. cbn. repeat split; try done.
    - intros x Hx. apply elem_of_remove_dups, elem_of_app. by left.
    - intros x Hx. apply elem_of_remove_dups, elem_of_app. by left.
    - intros x Hx. apply elem_of_remove_dups, elem_of_app in Hx. tauto. }
  destruct rb as [[]|e]; [by injection H as <- <- <- |].
  destruct e; injection H as <- <- <-; done.
Qed.

Lemma for_games_inv w self ig ar gs : forall gi s t s' res,
  for_games w self ig ar gi gs s = (t, s', res) ->
  (forall k g, gs !! k = Some g -> GAMES self !! (gi + k)%nat = Some g) ->
  cycle_inv w self ig ar s t s'.
Proof.
  induction gs as [|g rest IH]; intros gi s t s' res.
  - intros [= <- <- <-] _. apply cycle_inv_refl.
  - rewrite for_games_cons. intros H Hgs.
    destruct (do_game w self ig ar gi g s) as [[t1 s1] r1] eqn:E1.
    apply do_game_inv in E1.
    2:{ specialize (Hgs 0%nat g eq_refl). by rewrite Nat.add_0_r in Hgs. }
    destruct r1 as [[]|e]; try by injection H as <- <- <-.
    destruct (for_games w self ig ar (S gi) rest s1) as [[t2 s2] r2] eqn:E2.
    injection H as <- <- <-. apply IH in E2; [by eapply cycle_inv_app |].
    intros k g' Hk. specialize (Hgs (S k) g' Hk).
    by rewrite <- Nat.add_succ_comm in Hgs.
Qed.

(** The trace of [main] and the locals at its end, whether it returns
    or not. *)
Lemma main_inv w self ig ar loop :
  exists s,
    cycle_inv w self ig ar fresh_locals (main w self ig ar loop).1 s
    /\ forall b' c r,
         (main w self ig ar loop).2 = Returned b' (Some (c, r)) ->
         c = cache s /\ r = rejected s.
Proof.
  rewrite main_eq, refresh_oauth_eq.
  assert (forall t0 : list event,
            touched t0 = [] -> put_calls t0 = [] -> rejected_logs t0 = [] ->
            cycle_inv w self ig ar fresh_locals t0 fresh_locals) as H0.
  { intros t0 H1 H2 H3. unfold cycle_inv. rewrite H1, H2, H3.
    repeat split; by auto. }
  assert (forall t0 : list event,
    touched t0 = [] -> put_calls t0 = [] -> rejected_logs t0 = [] ->
    exists s,
      cycle_inv w self ig ar fresh_locals
        (match for_games w self ig ar 0 (GAMES self) fresh_locals with
         | (t, s, Ok _) =>
             (t0 ++ t,
              Returned (advance self)
                (if loop then Some (cache s, rejected s) else None))
         | (t, _, Err e) => (t0 ++ t, Crashed e)
         end).1 s
      /\ forall b' c r,
           (match for_games w self ig ar 0 (GAMES self) fresh_locals with
            | (t, s, Ok _) =>
                (t0 ++ t,
                 Returned (advance self)
                   (if loop then Some (cache s, rejected s) else None))
            | (t, _, Err e) => (t0 ++ t, Crashed e)
            end).2 = Returned b' (Some (c, r)) ->
           c = cache s /\ r = rejected s) as Hgames.
  { intros t0 H1 H2 H3.
    destruct (for_games w self ig ar 0 (GAMES self) fresh_locals)
      as [[t s] res] eqn:E.
    apply for_games_inv in E; [| done]. exists s.
    assert (cycle_inv w self ig ar fresh_locals (t0 ++ t) s) as I
      by (eapply cycle_inv_app; [by apply H0 | done]).
    destruct res as [b|e]; cbn [fst snd]; (split; [done |]).
    - intros b' c r. destruct loop; [| done]. by intros [= _ <- <-].
    - done. }
  destruct (get_oauth w) as [[]|]; try (by apply Hgames);
    exists fresh_locals; cbn [fst snd]; (split; [by apply H0 | done]).
Qed.

(** ** Properties of a whole cycle and of the chain of cycles *)

Lemma reason_texts_total fs : exists ts, reason_texts fs = Ok ts.
Proof.
  induction fs as [|f fs [ts IH]]; [by eexists |].
  cbn [reason_texts]. rewrite IH.
  destruct f; eexists; vm_compute; reflexivity.
Qed.

(** X15.  Composing the reason never raises: [REASON_TEXT] has an entry for the
    value of every member of [SubmissionErrors], whatever the list of
    faults. *)
Theorem full_reason_total fs :
  (exists reason, full_reason fs = Ok reason)
  /\ (forall f, is_Some (REASON_TEXT !! error_value f))
  /\ (forall k, is_Some (REASON_TEXT !! k) <-> 0 <= k <= 4).
Proof.
  split; [| split].
  - unfold full_reason. destruct (length fs <? 3)%nat; [| by eexists].
    destruct (reason_texts_total fs) as [ts ->]. by eexists.
  - intros []; vm_compute; by eexists.
  - intros k. split.
    + intros [t Ht]. unfold REASON_TEXT in Ht. cbn in Ht.
      repeat (rewrite lookup_insert in Ht; case_decide; [lia |]).
      by rewrite lookup_empty in Ht.
    + intros Hk.
      assert (k = 0 \/ k = 1 \/ k = 2 \/ k = 3 \/ k = 4) as Hc by lia.
      destruct Hc as [-> | [-> | [-> | [-> | ->]]]]; vm_compute; by eexists.
Qed.

(** X7.  Every reject call [main] sends is justified: it sets the status
    ["rejected"] with the bot's key for a run that was fetched during
    this call, is in neither previous list and has at least one fault,
    and its reason is composed from the faults of that run. *)
Theorem every_put_is_justified w self ig ar loop :
  Forall (justified w self ig ar) (put_calls (main w self ig ar loop).1).
Proof.
  destruct (main_inv w self ig ar loop) as (s & I & _). by destruct I.
Qed.

(** X8.  An id is in the [rejected] list handed to the next call only if it
    was in the previous [rejected] list or its rejection went through
    during this call (the PUT returned and the success was printed);
    and every id whose rejection went through is in that list. *)
Theorem rejected_bookkeeping w self ig ar loop b' c r :
  (main w self ig ar loop).2 = Returned b' (Some (c, r)) ->
  (forall x, x ∈ r ->
     x ∈ ar \/ x ∈ rejected_logs (main w self ig ar loop).1)
  /\ (forall x, x ∈ rejected_logs (main w self ig ar loop).1 ->
        x ∈ r /\ x ∈ put_id <$> put_calls (main w self ig ar loop).1).
Proof.
  intros Hret.
  destruct (main_inv w self ig ar loop)
    as (s & (_ & _ & _ & _ & Q & L & P) & Hs).
  destruct (Hs b' c r Hret) as [-> ->]. split.
  - intros x Hx. destruct (Q x Hx) as [H | H]; [| done].
    by apply elem_of_nil in H.
  - intros x Hx. rewrite Forall_forall in L, P. by split; [apply L | apply P].
Qed.

Lemma rejected_bookkeeping_witness :
  "a" ∈ ["a"]
  /\ "a" ∈ put_id <$>
           put_calls
             (main (Demo.calm (fun _ => [Demo.with_rta "a"]))
                Demo.one_game [] [] true).1.
Proof.
  apply (proj2 (rejected_bookkeeping
                  (Demo.calm (fun _ => [Demo.with_rta "a"]))
                  Demo.one_game [] [] true (advance Demo.one_game)
                  ["a"] ["a"] eq_refl) "a").
  vm_compute. apply list_elem_of_here.
Defined.

(** X9.  No run is evaluated or sent to the reject call in two calls of
    [main] that follow each other: every id evaluated or rejected in a
    call that returns is in the [cache] list it hands over, and the next
    call, whatever it is answered, touches none of them. *)
Theorem no_run_in_two_consecutive_cycles
    w1 w2 self ig ar b' c r loop x :
  (main w1 self ig ar true).2 = Returned b' (Some (c, r)) ->
  x ∈ touched (main w1 self ig ar true).1 ->
  x ∈ c /\ x ∉ touched (main w2 b' c r loop).1.
Proof.
  intros Hret Hx.
  destruct (main_inv w1 self ig ar true) as (s & (_ & T & _) & Hs).
  destruct (Hs b' c r Hret) as [-> ->].
  rewrite Forall_forall in T. specialize (T x Hx). split; [done |].
  intros Hx2.
  pose proof (main_touched w2 b' (cache s) (rejected s) loop) as F.
  rewrite Forall_forall in F. by destruct (F x Hx2).
Qed.

Lemma no_run_in_two_consecutive_cycles_witness :
  "a" ∈ ["a"]
  /\ "a" ∉ touched
             (main (Demo.calm (fun _ => [Demo.with_rta "a"]))
                (advance Demo.one_game) ["a"] [] true).1.
Proof.
  apply (no_run_in_two_consecutive_cycles
           (Demo.calm (fun _ => [Demo.clean "a"]))
           (Demo.calm (fun _ => [Demo.with_rta "a"]))
           Demo.one_game [] [] (advance Demo.one_game) ["a"] [] true "a").
  - reflexivity.
  - vm_compute. apply list_elem_of_here.
Defined.

Lemma requests_indices w ob gs : forall gi,
  (requests w ob gi gs).*1 = seq gi (length gs).
Proof.
  induction gs as [|g rest IH]; intros gi; cbn; [done |]. by rewrite IH.
Qed.

(** X10.  The games are fetched in the order of [self.GAMES], each at most
    once, in every call of [main]; a call that returns without having
    printed an abort has fetched every game exactly once. *)
Theorem games_fetched_in_order w self ig ar loop ob :
  QUERY_TABLE !! q_counter self = Some ob ->
  get_calls (main w self ig ar loop).1
    `prefix_of` requests w ob 0 (GAMES self)
  /\ (get_calls (main w self ig ar loop).1).*1
       `prefix_of` seq 0 (length (GAMES self))
  /\ (forall b' next,
        (main w self ig ar loop).2 = Returned b' next ->
        abort_logs (main w self ig ar loop).1 = [] ->
        get_calls (main w self ig ar loop).1
        = requests w ob 0 (GAMES self)).
Proof.
  intros Hob. destruct (main_gets w self ig ar loop) as [G _].
  specialize (G ob Hob). split; [done |]. split.
  - destruct G as [k Hk].
    rewrite <- (requests_indices w ob (GAMES self) 0), Hk, fmap_app.
    by apply prefix_app_r.
  - intros b' next Hret Hab.
    apply main_returned in Hret
      as (t0 & t & s & go_on & Ht & _ & G0 & A0 & _ & E & _).
    rewrite Ht in *. unfold get_calls, abort_logs in *.
    rewrite omap_app in Hab. rewrite omap_app, G0, app_nil_l.
    rewrite A0, app_nil_l in Hab.
    destruct go_on.
    + by apply (for_games_ok _ _ _ _ ob) in E as (E & _).
    + apply for_games_calls in E as (_ & _ & _ & F & _).
      by destruct (F eq_refl) as (F1 & _).
Qed.

Lemma games_fetched_in_order_witness :
  (get_calls (main (Demo.calm (fun _ => [])) Demo.two_games [] [] true).1).*1
  = [0%nat; 1%nat].
Proof.
  rewrite (proj2 (proj2 (games_fetched_in_order
                           (Demo.calm (fun _ => [])) Demo.two_games
                           [] [] true "game" eq_refl))
             (advance Demo.two_games) (Some ([], [])) eq_refl eq_refl).
  reflexivity.
Defined.

(** X12.  An exception that is neither an [HTTPError] nor a [ConnectionError],
    raised while a game is processed after the games before it went
    through, leaves [main]: the trace ends where it was raised,
    [q_counter] is not advanced and nothing is handed to a next call. *)
Theorem uncaught_exception_leaves_main
    w self ig ar loop pre g post t1 s1 t2 s2 e :
  GAMES self = pre ++ g :: post ->
  get_oauth w = None \/ get_oauth w = Some TwitchError ->
  for_games w self ig ar 0 pre fresh_locals = (t1, s1, Ok true) ->
  game_body w self ig ar (length pre) g (clear_faulty s1) = (t2, s2, Err e) ->
  e <> HTTPError -> e <> ConnectionError ->
  main w self ig ar loop
  = ((refresh_oauth w fresh_locals).1.1 ++ t1 ++ t2, Crashed e).
Proof.
  intros HG Hoauth Hpre Hbody He1 He2.
  assert (for_games w self ig ar (0 + length pre) (g :: post) s1
          = (t2, s2, Err e)) as Hg.
  { change (0 + length pre)%nat with (length pre).
    rewrite for_games_cons, do_game_eq, Hbody. by destruct e. }
  rewrite main_eq, refresh_oauth_eq, HG.
  destruct Hoauth as [-> | ->]; cbn [fst snd];
    by rewrite (for_games_app _ _ _ _ _ _ _ _ _ _ Hpre), Hg.
Qed.

Lemma uncaught_exception_leaves_main_witness :
  (main (Demo.calm (fun _ => [Demo.without_version "a"]))
     Demo.one_game [] [] true).2
  = Crashed KeyError.
Proof.
  erewrite (uncaught_exception_leaves_main
              (Demo.calm (fun _ => [Demo.without_version "a"]))
              Demo.one_game [] [] true [] Demo.celeste []).
  - reflexivity.
  - reflexivity.
  - by left.
  - reflexivity.
  - vm_compute. reflexivity.
  - discriminate.
  - discriminate.
Defined.

(** X13.  A call of [main] that is left by an exception starts no timer: no
    later call of the chain takes place. *)
Theorem crash_ends_the_chain ws self0 n b ig ar e m :
  cycle_input ws self0 n = Some (b, ig, ar) ->
  (main (ws n) b ig ar true).2 = Crashed e ->
  (n < m)%nat ->
  cycle_input ws self0 m = None.
Proof.
  intros Hn Hcrash Hlt.
  assert (cycle_input ws self0 (S n) = None) as HS.
  { cbn [cycle_input]. by rewrite Hn, Hcrash. }
  induction m as [|m IH]; [lia |].
  destruct (decide (m = n)) as [-> | Hne]; [done |].
  cbn [cycle_input]. rewrite IH by lia. done.
Qed.

Lemma crash_ends_the_chain_witness :
  cycle_input (fun _ => Demo.calm (fun _ => [Demo.without_version "a"]))
    Demo.one_game 3
  = None.
Proof.
  apply (crash_ends_the_chain
           (fun _ => Demo.calm (fun _ => [Demo.without_version "a"]))
           Demo.one_game 0 Demo.one_game [] [] KeyError 3).
  - reflexivity.
  - reflexivity.
  - lia.
Defined.

(** X14.  The token refresh comes first in every call.  When it raises a
    Twitch exception, the failure is printed and the games are processed
    as if it had succeeded; when it raises anything else, [main] is left
    before any fetch. *)
Theorem token_refresh_first w self ig ar loop :
  (exists t, (main w self ig ar loop).1 = EvOAuth :: t)
  /\ (get_oauth w = Some TwitchError ->
      exists t s res,
        for_games w self ig ar 0 (GAMES self) fresh_locals = (t, s, res)
        /\ (main w self ig ar loop).1
           = EvOAuth :: EvLog LogOAuthError :: t)
  /\ (forall e, get_oauth w = Some e -> e <> TwitchError ->
        main w self ig ar loop = ([EvOAuth], Crashed e)).
Proof.
  rewrite main_eq, refresh_oauth_eq.
  destruct (for_games w self ig ar 0 (GAMES self) fresh_locals)
    as [[t s] res] eqn:E.
  split; [| split].
  - destruct (get_oauth w) as [[]|]; cbn [fst snd]; try (by eexists);
      rewrite E; destruct res; by eexists.
  - intros ->. cbn [fst snd]. rewrite E.
    exists t, s, res. split; [done |]. by destruct res.
  - intros e -> He. by destruct e.
Qed.

Lemma token_refresh_first_witness :
  main (refusing_token (fun _ => [Demo.with_rta "a"]) OtherError)
    Demo.one_game [] [] true
  = ([EvOAuth], Crashed OtherError)
  /\ exists t s res,
       for_games (refusing_token (fun _ => [Demo.with_rta "a"]) TwitchError)
         Demo.one_game [] [] 0 (GAMES Demo.one_game) fresh_locals
       = (t, s, res)
       /\ (main (refusing_token (fun _ => [Demo.with_rta "a"]) TwitchError)
             Demo.one_game [] [] true).1
          = EvOAuth :: EvLog LogOAuthError :: t.
Proof.
  split.
  - apply (proj2 (proj2 (token_refresh_first
                           (refusing_token (fun _ => [Demo.with_rta "a"])
                              OtherError)
                           Demo.one_game [] [] true)) OtherError).
    + reflexivity.
    + discriminate.
  - apply (proj1 (proj2 (token_refresh_first
                           (refusing_token (fun _ => [Demo.with_rta "a"])
                              TwitchError)
                           Demo.one_game [] [] true))).
    reflexivity.
Defined.

Lemma evaluated_all (rs : list run) :
  evaluated [] [] rs = run_id <$> rs.
Proof.
  unfold evaluated. induction (run_id <$> rs) as [|x l IH]; [done |].
  rewrite filter_cons, IH. rewrite decide_True; [done |].
  split; apply not_elem_of_nil.
Qed.

(** X11.  A call of [main] that returns without having printed an abort has
    evaluated the listed runs that are in neither previous list, in the
    order of the listing, each with the five rules in their order.  For
    [start], whose previous lists are empty, these are all the listed
    runs, and they all are in the [cache] list handed over. *)
Theorem evaluation_order w self ig ar loop b' next ob :
  (main w self ig ar loop).2 = Returned b' next ->
  abort_logs (main w self ig ar loop).1 = [] ->
  QUERY_TABLE !! q_counter self = Some ob ->
  rule_calls (main w self ig ar loop).1
  = mjoin (five_rules <$> evaluated ig ar (listed w ob 0 (GAMES self)))
  /\ (ig = [] -> ar = [] -> loop = true ->
      rule_calls (start w self).1
      = mjoin (five_rules <$> (run_id <$> listed w ob 0 (GAMES self)))
      /\ exists r,
           next = Some (run_id <$> listed w ob 0 (GAMES self), r)).
Proof.
  intros Hret Hab Hob.
  assert (rule_calls (main w self ig ar loop).1
          = mjoin (five_rules <$> evaluated ig ar
                                    (listed w ob 0 (GAMES self)))
          /\ (loop = true ->
              exists r,
                next = Some (seen_ids ar (listed w ob 0 (GAMES self)), r)))
    as [H1 H2].
  { apply main_returned in Hret
      as (t0 & t & s & go_on & Ht & _ & _ & A0 & R0 & E & _ & Hnext).
    rewrite Ht in *. unfold abort_logs, rule_calls in *.
    rewrite omap_app in Hab. rewrite omap_app, R0, app_nil_l.
    rewrite A0, app_nil_l in Hab.
    destruct go_on.
    - apply (for_games_ok _ _ _ _ ob) in E
        as (_ & _ & E & C & R & J & _); [| done].
      split; [done |]. intros ->. rewrite Hnext, C. by exists (rejected s).
    - apply for_games_calls in E as (_ & _ & _ & F & _).
      by destruct (F eq_refl) as (F1 & _). }
  split; [done |]. intros -> -> ->. unfold start.
  rewrite H1, evaluated_all. split; [done |].
  destruct (H2 eq_refl) as [r ->]. exists r. f_equal. f_equal.
  unfold seen_ids. induction (run_id <$> _) as [|x l IH]; [done |].
  rewrite filter_cons, IH. rewrite decide_True; [done |].
  apply not_elem_of_nil.
Qed.

Lemma evaluation_order_witness :
  rule_calls
    (start (Demo.calm (fun _ => [Demo.clean "a"; Demo.clean "b"]))
       Demo.one_game).1
  = five_rules "a" ++ five_rules "b".
Proof.
  edestruct (evaluation_order
               (Demo.calm (fun _ => [Demo.clean "a"; Demo.clean "b"]))
               Demo.one_game [] [] true) as (_ & H).
  - reflexivity.
  - reflexivity.
  - reflexivity.
  - destruct (H eq_refl eq_refl eq_refl) as [-> _]. reflexivity.
Defined.
